(** * Letter Invaders: a shallow embedding of the falling-letter game

    The game script keeps its whole state in a handful of top-level
    variables and mutates them from three kinds of callbacks: the
    animation frame ([gameLoop]), the keyboard listeners
    ([handleKeyPress], [handleKeyUp]) and the spawn timer armed by
    [scheduleNextLetter].  Here every callback is a function
    [State -> State]; [for] loops that walk an array backwards are
    fixpoints on the loop index.

    Conventions.
    - JavaScript numbers are IEEE 754 doubles.  A finite double is a
      rational number, so a number is the rational ([Q]) it denotes, or an
      integer ([Z]) where the script only ever produces integers (score,
      timer delays, the pixel offsets that go through [parseInt] or
      [Math.floor]).  The arithmetic of the falling letters and of the
      heat map (the decimal literals of the difficulty tiers, the fall
      speed, [letter.y += fallSpeed], the proximity quotient and the
      lightness) rounds each result to the nearest double, ties to even
      ([double]).  On the horizontal axis the script only adds and
      subtracts halves of integers, which doubles do exactly below
      [2 ^ 52]; these sums, and the product of a random number with a
      length, are written without rounding.  Overflow to [Infinity] and
      [NaN] are outside the model: magnitudes stay far below [2 ^ 1024],
      and the one division the script makes has a divisor that is zero
      only on a field exactly [LETTER_WIDTH] pixels high.
    - A one-character string is its UTF-16 code unit ([N]); [e.key] is the
      list of its code units.
    - Of the document only what the script reads back is kept: the
      [style.left]/[style.top] of letters and projectiles (read through
      [getBoundingClientRect], [offsetTop] and [parseInt]) and the
      background of the on-screen keys.  Score displays, screens and the
      player's own element are write-only and left out.
    - [Math.random], [setTimeout] and [clearTimeout] are modelled by a
      stream of random numbers, a table of pending timeouts and a log of
      the calls made. *)

From Stdlib Require Import ZArith QArith Qround Qminmax Qpower Lqa Lia.
From stdpp Require Import gmap list strings.

(** ** Numbers *)

(** [a < b] on JavaScript numbers, as a boolean. *)
Definition Qltb (a b : Q) : bool := negb (Qle_bool b a).

(** [floor (log2 x)] for a positive [x]. *)
Definition ilog2 (x : Q) : Z :=
  let d := (Z.log2 (Qnum x) - Z.log2 (Zpos (Qden x)))%Z in
  if Qle_bool (2 ^ d) x then d else (d - 1)%Z.

(** The integer nearest to [x], a tie going to the even one. *)
Definition rne (x : Q) : Z :=
  let f := Qfloor x in
  match (x - inject_Z f ?= 1 # 2)%Q with
  | Lt => f
  | Gt => (f + 1)%Z
  | Eq => if Z.even f then f else (f + 1)%Z
  end.

(** Exponent of the unit in the last place of the doubles around a
    positive [x]: 53 significant bits, and the fixed spacing [2 ^ -1074]
    of the subnormal range below [2 ^ -1022]. *)
Definition ulp (x : Q) : Z := (Z.max (ilog2 x) (-1022) - 52)%Z.

Definition nearest (x : Q) : Q :=
  (inject_Z (rne (x / 2 ^ ulp x)) * 2 ^ ulp x)%Q.

(** The double nearest to the real number [x]: the result of an arithmetic
    operation whose exact value is [x], and the value of a decimal literal
    [x]. *)
Definition double (x : Q) : Q :=
  match (x ?= 0)%Q with
  | Eq => 0%Q
  | Gt => nearest x
  | Lt => (- nearest (- x))%Q
  end.

(** ** Strings and characters *)

Definition codeUnits (s : string) : list N :=
  map Ascii.N_of_ascii (String.list_ascii_of_string s).

Definition ArrowLeft : list N := Eval cbv in codeUnits "ArrowLeft".
Definition ArrowRight : list N := Eval cbv in codeUnits "ArrowRight".

Definition keyIs (key name : list N) : bool := bool_decide (key = name).

(** [/[a-z]/i] on a one-character string: without the [u] flag the
    case-insensitive class matches the ASCII letters only. *)
Definition isLatinLetter (c : N) : bool :=
  ((65 <=? c) && (c <=? 90) || (97 <=? c) && (c <=? 122))%N.

(** [toLowerCase] and [toUpperCase] of a one-character string.  The script
    applies them only to characters that passed the filter of
    [handleKeyPress] (ASCII letters and the Hebrew letters), where they act
    as below; Hebrew has no case. *)
Definition toLowerCase (c : N) : N :=
  if ((65 <=? c) && (c <=? 90))%N then (c + 32)%N else c.

Definition toUpperCase (c : N) : N :=
  if ((97 <=? c) && (c <=? 122))%N then (c - 32)%N else c.

(** ** Constants *)

Definition LETTER_WIDTH : Z := 40.
Definition PROJECTILE_WIDTH : Z := 25.
Definition PLAYER_SPEED : Q := 8.
Definition PROJECTILE_SPEED : Z := 10.

Inductive Difficulty := easy | normal | hard.

Record Settings := { speed : Q; increase : Q; spawn : Z }.

Definition DIFFICULTY_SETTINGS (d : Difficulty) : Settings :=
  match d with
  | easy   => {| speed := double 0.3; increase := double 0.05; spawn := 10000 |}
  | normal => {| speed := 1;          increase := double 0.15; spawn := 5000 |}
  | hard   => {| speed := 2;          increase := double 0.05; spawn := 3000 |}
  end.

Definition MIN_SPAWN_INTERVAL : Z := 400.
Definition SPAWN_INTERVAL_REDUCTION_PER_SCORE : Z := 10.

Definition ENGLISH_KEYBOARD_LAYOUT : list (list N) :=
  Eval cbv in map codeUnits ["QWERTYUIOP"; "ASDFGHJKL"; "ZXCVBNM"].

(** The three rows of the Hebrew layout, U+05D0 .. U+05EA. *)
Definition HEBREW_KEYBOARD_LAYOUT : list (list N) :=
  [ [1511; 1512; 1488; 1496; 1493; 1503; 1501; 1508];
    [1513; 1491; 1490; 1499; 1506; 1497; 1495; 1500; 1498; 1507];
    [1494; 1505; 1489; 1492; 1504; 1502; 1510; 1514; 1509] ]%N.

Definition ENGLISH_CHARACTERS : list N := concat ENGLISH_KEYBOARD_LAYOUT.
Definition HEBREW_CHARACTERS : list N := concat HEBREW_KEYBOARD_LAYOUT.

(** ** Game objects and state *)

Inductive Language := en | he.

(** The inline style of an absolutely positioned child of the game
    container, in pixels. *)
Record Element := { style_left : Q; style_top : Z }.

Record Letter := { l_element : Element; l_character : N; y : Q }.

Record Projectile := { p_element : Element; p_character : N }.

(** Background of an on-screen key: [''] or [hsl(0, 90%, lightness%)]. *)
Inductive KeyStyle := Neutral | Heated (lightness : Q).

Inductive Call :=
  | CallClearTimeout (id : nat)
  | CallCreateLetter
  | CallSetTimeout (delay : Z).

#[global] Instance Call_eq_dec : EqDecision Call.
Proof. solve_decision. Defined.

Record State : Type := mkState {
  initialFallSpeed : Q;
  fallSpeedIncreasePerScore : Q;
  initialSpawnInterval : Z;
  score : Z;
  selectedLanguage : Language;
  gameIsActive : bool;
  playerPosition : Q;
  fallingLetters : list Letter;
  projectiles : list Projectile;
  keyboardMap : gmap N KeyStyle;
  isMovingLeft : bool;
  isMovingRight : bool;
  letterInterval : nat;
  timeouts : gmap nat Z;
  timeoutIds : nat;
  randomCalls : nat;
  calls : list Call
}.

Definition set_score (v : Z) (st : State) : State :=
  mkState (initialFallSpeed st) (fallSpeedIncreasePerScore st) (initialSpawnInterval st) v (selectedLanguage st) (gameIsActive st)
    (playerPosition st) (fallingLetters st) (projectiles st) (keyboardMap st) (isMovingLeft st) (isMovingRight st)
    (letterInterval st) (timeouts st) (timeoutIds st) (randomCalls st) (calls st).

Definition set_selectedLanguage (v : Language) (st : State) : State :=
  mkState (initialFallSpeed st) (fallSpeedIncreasePerScore st) (initialSpawnInterval st) (score st) v (gameIsActive st)
    (playerPosition st) (fallingLetters st) (projectiles st) (keyboardMap st) (isMovingLeft st) (isMovingRight st)
    (letterInterval st) (timeouts st) (timeoutIds st) (randomCalls st) (calls st).

Definition set_gameIsActive (v : bool) (st : State) : State :=
  mkState (initialFallSpeed st) (fallSpeedIncreasePerScore st) (initialSpawnInterval st) (score st) (selectedLanguage st) v
    (playerPosition st) (fallingLetters st) (projectiles st) (keyboardMap st) (isMovingLeft st) (isMovingRight st)
    (letterInterval st) (timeouts st) (timeoutIds st) (randomCalls st) (calls st).

Definition set_playerPosition (v : Q) (st : State) : State :=
  mkState (initialFallSpeed st) (fallSpeedIncreasePerScore st) (initialSpawnInterval st) (score st) (selectedLanguage st) (gameIsActive st)
    v (fallingLetters st) (projectiles st) (keyboardMap st) (isMovingLeft st) (isMovingRight st)
    (letterInterval st) (timeouts st) (timeoutIds st) (randomCalls st) (calls st).

Definition set_fallingLetters (v : list Letter) (st : State) : State :=
  mkState (initialFallSpeed st) (fallSpeedIncreasePerScore st) (initialSpawnInterval st) (score st) (selectedLanguage st) (gameIsActive st)
    (playerPosition st) v (projectiles st) (keyboardMap st) (isMovingLeft st) (isMovingRight st)
    (letterInterval st) (timeouts st) (timeoutIds st) (randomCalls st) (calls st).

Definition set_projectiles (v : list Projectile) (st : State) : State :=
  mkState (initialFallSpeed st) (fallSpeedIncreasePerScore st) (initialSpawnInterval st) (score st) (selectedLanguage st) (gameIsActive st)
    (playerPosition st) (fallingLetters st) v (keyboardMap st) (isMovingLeft st) (isMovingRight st)
    (letterInterval st) (timeouts st) (timeoutIds st) (randomCalls st) (calls st).

Definition set_keyboardMap (v : gmap N KeyStyle) (st : State) : State :=
  mkState (initialFallSpeed st) (fallSpeedIncreasePerScore st) (initialSpawnInterval st) (score st) (selectedLanguage st) (gameIsActive st)
    (playerPosition st) (fallingLetters st) (projectiles st) v (isMovingLeft st) (isMovingRight st)
    (letterInterval st) (timeouts st) (timeoutIds st) (randomCalls st) (calls st).

Definition set_isMovingLeft (v : bool) (st : State) : State :=
  mkState (initialFallSpeed st) (fallSpeedIncreasePerScore st) (initialSpawnInterval st) (score st) (selectedLanguage st) (gameIsActive st)
    (playerPosition st) (fallingLetters st) (projectiles st) (keyboardMap st) v (isMovingRight st)
    (letterInterval st) (timeouts st) (timeoutIds st) (randomCalls st) (calls st).

Definition set_isMovingRight (v : bool) (st : State) : State :=
  mkState (initialFallSpeed st) (fallSpeedIncreasePerScore st) (initialSpawnInterval st) (score st) (selectedLanguage st) (gameIsActive st)
    (playerPosition st) (fallingLetters st) (projectiles st) (keyboardMap st) (isMovingLeft st) v
    (letterInterval st) (timeouts st) (timeoutIds st) (randomCalls st) (calls st).

Definition set_letterInterval (v : nat) (st : State) : State :=
  mkState (initialFallSpeed st) (fallSpeedIncreasePerScore st) (initialSpawnInterval st) (score st) (selectedLanguage st) (gameIsActive st)
    (playerPosition st) (fallingLetters st) (projectiles st) (keyboardMap st) (isMovingLeft st) (isMovingRight st)
    v (timeouts st) (timeoutIds st) (randomCalls st) (calls st).

Definition set_timeouts (v : gmap nat Z) (st : State) : State :=
  mkState (initialFallSpeed st) (fallSpeedIncreasePerScore st) (initialSpawnInterval st) (score st) (selectedLanguage st) (gameIsActive st)
    (playerPosition st) (fallingLetters st) (projectiles st) (keyboardMap st) (isMovingLeft st) (isMovingRight st)
    (letterInterval st) v (timeoutIds st) (randomCalls st) (calls st).

Definition set_timeoutIds (v : nat) (st : State) : State :=
  mkState (initialFallSpeed st) (fallSpeedIncreasePerScore st) (initialSpawnInterval st) (score st) (selectedLanguage st) (gameIsActive st)
    (playerPosition st) (fallingLetters st) (projectiles st) (keyboardMap st) (isMovingLeft st) (isMovingRight st)
    (letterInterval st) (timeouts st) v (randomCalls st) (calls st).

Definition set_randomCalls (v : nat) (st : State) : State :=
  mkState (initialFallSpeed st) (fallSpeedIncreasePerScore st) (initialSpawnInterval st) (score st) (selectedLanguage st) (gameIsActive st)
    (playerPosition st) (fallingLetters st) (projectiles st) (keyboardMap st) (isMovingLeft st) (isMovingRight st)
    (letterInterval st) (timeouts st) (timeoutIds st) v (calls st).

Definition set_calls (v : list Call) (st : State) : State :=
  mkState (initialFallSpeed st) (fallSpeedIncreasePerScore st) (initialSpawnInterval st) (score st) (selectedLanguage st) (gameIsActive st)
    (playerPosition st) (fallingLetters st) (projectiles st) (keyboardMap st) (isMovingLeft st) (isMovingRight st)
    (letterInterval st) (timeouts st) (timeoutIds st) (randomCalls st) v.
Definition logCall (c : Call) (st : State) : State :=
  set_calls (calls st ++ [c]) st.

(** ** The page

    What the script takes from the document and the browser: the
    [offsetWidth]/[offsetHeight] of the game container and of the player,
    the heights the style sheet gives to a letter and to a projectile, and
    the successive results of [Math.random]. *)
Record Page := {
  gameContainer_offsetWidth : Z;
  gameContainer_offsetHeight : Z;
  player_offsetWidth : Z;
  player_offsetHeight : Z;
  letter_height : Q;
  projectile_height : Q;
  random : nat -> Q
}.

(** ** The game *)

Section Game.

Variable page : Page.

Definition GAME_WIDTH : Z := gameContainer_offsetWidth page.
Definition GAME_HEIGHT : Z := gameContainer_offsetHeight page.
Definition PLAYER_WIDTH : Z := player_offsetWidth page.

(** *** Timers *)

Definition clearTimeout (id : nat) (st : State) : State :=
  logCall (CallClearTimeout id) (set_timeouts (delete id (timeouts st)) st).

(** [letterInterval = setTimeout(callback, delay)]: the callback is always
    the one of [scheduleNextLetter], see [timeoutFires]. *)
Definition setTimeout (delay : Z) (st : State) : State :=
  let id := timeoutIds st in
  logCall (CallSetTimeout delay)
    (set_letterInterval id
       (set_timeoutIds (S id) (set_timeouts (<[id := delay]> (timeouts st)) st))).

Definition nextInterval (st : State) : Z :=
  let intervalReduction := (score st * SPAWN_INTERVAL_REDUCTION_PER_SCORE)%Z in
  Z.max MIN_SPAWN_INTERVAL (initialSpawnInterval st - intervalReduction).

Definition scheduleNextLetter (st : State) : State :=
  if negb (gameIsActive st) then st else setTimeout (nextInterval st) st.

(** *** Spawning *)

Definition Math_random (st : State) : Q * State :=
  (random page (randomCalls st), set_randomCalls (S (randomCalls st)) st).

(** [chars[Math.floor(r * chars.length)]]; the default stands for
    [undefined], which cannot arise for [0 <= r < 1]. *)
Definition pick (chars : list N) (r : Q) : N :=
  default 0%N (chars !! Z.to_nat (Qfloor (r * inject_Z (Z.of_nat (length chars))))).

Definition createLetter (st : State) : State :=
  let '(r1, st1) := Math_random st in
  let character :=
    match selectedLanguage st with
    | he => pick HEBREW_CHARACTERS r1
    | en => pick ENGLISH_CHARACTERS r1
    end in
  let '(r2, st2) := Math_random st1 in
  let randomX := Qfloor (r2 * inject_Z (GAME_WIDTH - LETTER_WIDTH)) in
  let letterElement := {| style_left := inject_Z randomX; style_top := 0 |} in
  logCall CallCreateLetter
    (set_fallingLetters
       (fallingLetters st2 ++
          [{| l_element := letterElement; l_character := character; y := 0 |}])
       st2).

(** The callback armed by [scheduleNextLetter]; a cleared or already fired
    timeout never runs. *)
Definition timeoutFires (id : nat) (st : State) : State :=
  match timeouts st !! id with
  | Some _ =>
      scheduleNextLetter (createLetter (set_timeouts (delete id (timeouts st)) st))
  | None => st
  end.

Definition setupKeyboard (st : State) : State :=
  let layout :=
    match selectedLanguage st with
    | he => HEBREW_KEYBOARD_LAYOUT
    | en => ENGLISH_KEYBOARD_LAYOUT
    end in
  set_keyboardMap
    (foldl (fun m char => <[char := Neutral]> m) ∅ (concat layout)) st.

Definition createProjectile (character : N) (st : State) : State :=
  let projectileX :=
    (playerPosition st + inject_Z PLAYER_WIDTH / 2 - inject_Z PROJECTILE_WIDTH / 2)%Q in
  let projectileY := (GAME_HEIGHT - player_offsetHeight page)%Z in
  let projectileElement := {| style_left := projectileX; style_top := projectileY |} in
  set_projectiles
    (projectiles st ++ [{| p_element := projectileElement; p_character := character |}])
    st.

(** *** Session *)

Definition startGame (difficulty : Difficulty) (st : State) : State :=
  let settings := DIFFICULTY_SETTINGS difficulty in
  let st1 :=
    {| initialFallSpeed := speed settings;
       fallSpeedIncreasePerScore := increase settings;
       initialSpawnInterval := spawn settings;
       score := 0;
       selectedLanguage := selectedLanguage st;
       gameIsActive := true;
       playerPosition := (inject_Z (GAME_WIDTH - PLAYER_WIDTH) / 2)%Q;
       fallingLetters := [];
       projectiles := [];
       keyboardMap := keyboardMap st;
       isMovingLeft := false;
       isMovingRight := false;
       letterInterval := letterInterval st;
       timeouts := timeouts st;
       timeoutIds := timeoutIds st;
       randomCalls := randomCalls st;
       calls := calls st |} in
  scheduleNextLetter (setupKeyboard st1).

Definition selectLanguage (lang : Language) (st : State) : State :=
  set_selectedLanguage lang st.

Definition endGame (st : State) : State :=
  let st1 := set_gameIsActive false st in
  let st2 := clearTimeout (letterInterval st1) st1 in
  set_keyboardMap ((fun _ => Neutral) <$> keyboardMap st2) st2.

(** *** Falling letters *)

(** [initialFallSpeed + (score * fallSpeedIncreasePerScore)]. *)
Definition fallSpeed (st : State) : Q :=
  double (initialFallSpeed st
          + double (inject_Z (score st) * fallSpeedIncreasePerScore st)).

(** [letter.y += fallSpeed; letter.element.style.top = Math.floor(letter.y)]. *)
Definition fall (speed : Q) (letter : Letter) : Letter :=
  let y' := double (y letter + speed) in
  {| l_element := {| style_left := style_left (l_element letter);
                     style_top := Qfloor y' |};
     l_character := l_character letter;
     y := y' |}.

(** The loop of [updateLetters] with [i] still to run from [n - 1] down
    to [0]. *)
Fixpoint updateLetters_from (n : nat) (st : State) : State :=
  match n with
  | O => st
  | S i =>
      match fallingLetters st !! i with
      | None => st
      | Some letter0 =>
          let letter := fall (fallSpeed st) letter0 in
          let st1 := set_fallingLetters (<[i := letter]> (fallingLetters st)) st in
          if Qltb (inject_Z GAME_HEIGHT) (y letter) then endGame st1
          else updateLetters_from i st1
      end
  end.

Definition updateLetters (st : State) : State :=
  updateLetters_from (length (fallingLetters st)) st.

(** *** Keyboard heat map *)

Definition offsetTop (e : Element) : Z := style_top e.

(** [letter.element.offsetTop / (GAME_HEIGHT - LETTER_WIDTH)]. *)
Definition proximity (letter : Letter) : Q :=
  double (inject_Z (offsetTop (l_element letter))
          / inject_Z (GAME_HEIGHT - LETTER_WIDTH)).

Definition recordProximity (proximityMap : gmap N Q) (letter : Letter) : gmap N Q :=
  let char := l_character letter in
  match proximityMap !! char with
  | None => <[char := proximity letter]> proximityMap
  | Some p =>
      if Qltb p (proximity letter) then <[char := proximity letter]> proximityMap
      else proximityMap
  end.

Definition proximityMapOf (letters : list Letter) : gmap N Q :=
  foldl recordProximity ∅ letters.

Definition keyStyle (proximityMap : gmap N Q) (char : N) : KeyStyle :=
  match proximityMap !! char with
  | Some p =>
      let intensity := Qmin p 1 in
      Heated (double (70 - double (25 * intensity)))
  | None => Neutral
  end.

Definition updateKeyboardVisuals (st : State) : State :=
  let proximityMap := proximityMapOf (fallingLetters st) in
  set_keyboardMap
    (map_imap (fun char _ => Some (keyStyle proximityMap char)) (keyboardMap st)) st.

(** *** Projectiles and collisions *)

Record DOMRect := { r_left : Q; r_right : Q; r_top : Q; r_bottom : Q }.

(** [getBoundingClientRect] of a child of the game container, in the
    container's coordinates: the container's own offset in the viewport is
    added to both rectangles of a comparison and cancels. *)
Definition getBoundingClientRect (e : Element) (width height : Q) : DOMRect :=
  {| r_left := style_left e;
     r_right := (style_left e + width)%Q;
     r_top := inject_Z (style_top e);
     r_bottom := (inject_Z (style_top e) + height)%Q |}.

Definition projRectOf (proj : Projectile) : DOMRect :=
  getBoundingClientRect (p_element proj) (inject_Z PROJECTILE_WIDTH)
    (projectile_height page).

Definition letterRectOf (letter : Letter) : DOMRect :=
  getBoundingClientRect (l_element letter) (inject_Z LETTER_WIDTH)
    (letter_height page).

Definition overlapping (projRect letterRect : DOMRect) : bool :=
  Qltb (r_left projRect) (r_right letterRect) &&
  Qltb (r_left letterRect) (r_right projRect) &&
  Qltb (r_top projRect) (r_bottom letterRect) &&
  Qltb (r_top letterRect) (r_bottom projRect).

(** The two nested tests of the inner loop. *)
Definition collides (proj : Projectile) (letter : Letter) : bool :=
  (toUpperCase (p_character proj) =? l_character letter)%N &&
  overlapping (projRectOf proj) (letterRectOf letter).

(** The body of the "Successful hit!" branch, for projectile [i] and
    letter [j]. *)
Definition resolveHit (i j : nat) (st : State) : State :=
  let st1 := set_score (score st + 1)%Z st in
  let st2 := set_projectiles (delete i (projectiles st1)) st1 in
  let st3 := set_fallingLetters (delete j (fallingLetters st2)) st2 in
  if (length (fallingLetters st3) =? 0)%nat then
    scheduleNextLetter (createLetter (clearTimeout (letterInterval st3) st3))
  else st3.

(** The inner loop with [j] still to run from [n - 1] down to [0]; the
    boolean is [hasCollided]. *)
Fixpoint scanLetters (i : nat) (proj : Projectile) (n : nat) (st : State)
  : State * bool :=
  match n with
  | O => (st, false)
  | S j =>
      match fallingLetters st !! j with
      | None => (st, false)
      | Some letter =>
          if collides proj letter then (resolveHit i j st, true)
          else scanLetters i proj j st
      end
  end.

Definition moveUp (proj : Projectile) : Projectile :=
  {| p_element := {| style_left := style_left (p_element proj);
                     style_top := (style_top (p_element proj) - PROJECTILE_SPEED)%Z |};
     p_character := p_character proj |}.

(** One turn of the outer loop, for the projectile at index [i]. *)
Definition updateProjectile (i : nat) (st : State) : State :=
  match projectiles st !! i with
  | None => st
  | Some proj0 =>
      let currentTop := style_top (p_element proj0) in
      let proj := moveUp proj0 in
      let st1 := set_projectiles (<[i := proj]> (projectiles st)) st in
      let '(st2, hasCollided) :=
        scanLetters i proj (length (fallingLetters st1)) st1 in
      if hasCollided then st2
      else if (currentTop <? 0)%Z then
        set_projectiles (delete i (projectiles st2)) st2
      else st2
  end.

(** The outer loop with [i] still to run from [n - 1] down to [0]. *)
Fixpoint updateProjectiles_from (n : nat) (st : State) : State :=
  match n with
  | O => st
  | S i => updateProjectiles_from i (updateProjectile i st)
  end.

Definition updateProjectiles (st : State) : State :=
  updateProjectiles_from (length (projectiles st)) st.

(** *** Player and input *)

Definition updatePlayerPosition (st : State) : State :=
  let p0 := playerPosition st in
  let p1 := if isMovingLeft st then (p0 - PLAYER_SPEED)%Q else p0 in
  let p2 := if isMovingRight st then (p1 + PLAYER_SPEED)%Q else p1 in
  let p3 := if Qltb p2 0 then 0%Q else p2 in
  let p4 := if Qltb (inject_Z (GAME_WIDTH - PLAYER_WIDTH)) p3
            then inject_Z (GAME_WIDTH - PLAYER_WIDTH) else p3 in
  set_playerPosition p4 st.

Definition handleKeyPress (key : list N) (st : State) : State :=
  if negb (gameIsActive st) then st
  else
    let st1 :=
      if keyIs key ArrowLeft then set_isMovingLeft true st
      else if keyIs key ArrowRight then set_isMovingRight true st
      else st in
    match key with
    | [pressedKey] =>
        if isLatinLetter pressedKey || bool_decide (pressedKey ∈ HEBREW_CHARACTERS)
        then createProjectile (toLowerCase pressedKey) st1
        else st1
    | _ => st1
    end.

Definition handleKeyUp (key : list N) (st : State) : State :=
  if keyIs key ArrowLeft then set_isMovingLeft false st
  else if keyIs key ArrowRight then set_isMovingRight false st
  else st.

(** *** The frame callback and the event loop *)

Definition gameLoop (st : State) : State :=
  if negb (gameIsActive st) then st
  else
    let st1 := updatePlayerPosition st in
    let st2 := updateProjectiles st1 in
    let st3 := updateKeyboardVisuals st2 in
    updateLetters st3.

Inductive Event :=
  | Frame
  | KeyDown (key : list N)
  | KeyUp (key : list N)
  | Timeout (id : nat)
  | ClickLanguage (lang : Language)
  | ClickDifficulty (difficulty : Difficulty).

Definition handle (e : Event) (st : State) : State :=
  match e with
  | Frame => gameLoop st
  | KeyDown key => handleKeyPress key st
  | KeyUp key => handleKeyUp key st
  | Timeout id => timeoutFires id st
  | ClickLanguage lang => selectLanguage lang st
  | ClickDifficulty difficulty => startGame difficulty st
  end.

Definition run (events : list Event) (st : State) : State :=
  foldl (fun s e => handle e s) st events.

(** The state right after the script is loaded.  The three difficulty
    variables are still [undefined] there; they are read only after
    [startGame] has set them, so any value will do. *)
Definition loaded : State :=
  {| initialFallSpeed := 0;
     fallSpeedIncreasePerScore := 0;
     initialSpawnInterval := 0;
     score := 0;
     selectedLanguage := en;
     gameIsActive := false;
     playerPosition := (inject_Z (GAME_WIDTH - PLAYER_WIDTH) / 2)%Q;
     fallingLetters := [];
     projectiles := [];
     keyboardMap := ∅;
     isMovingLeft := false;
     isMovingRight := false;
     letterInterval := 0;
     timeouts := ∅;
     timeoutIds := 1;
     randomCalls := 0;
     calls := [] |}.

(** ** A sample page *)

Definition samplePage : Page :=
  {| gameContainer_offsetWidth := 800;
     gameContainer_offsetHeight := 440;
     player_offsetWidth := 100;
     player_offsetHeight := 20;
     letter_height := 40;
     projectile_height := 25;
     random := fun _ => 0.5%Q |}.

(** The same page with a field of 300 pixels. *)
Definition lowPage : Page :=
  {| gameContainer_offsetWidth := 800;
     gameContainer_offsetHeight := 300;
     player_offsetWidth := 100;
     player_offsetHeight := 20;
     letter_height := 40;
     projectile_height := 25;
     random := fun _ => 0.5%Q |}.

(** An English game in progress on the sample page, as [startGame] sets it
    up, with a given score and given letters and projectiles. *)
Definition playing (difficulty : Difficulty) (points : Z)
    (letters : list Letter) (shots : list Projectile) : State :=
  {| initialFallSpeed := speed (DIFFICULTY_SETTINGS difficulty);
     fallSpeedIncreasePerScore := increase (DIFFICULTY_SETTINGS difficulty);
     initialSpawnInterval := spawn (DIFFICULTY_SETTINGS difficulty);
     score := points;
     selectedLanguage := en;
     gameIsActive := true;
     playerPosition := (inject_Z (800 - 100) / 2)%Q;
     fallingLetters := letters;
     projectiles := shots;
     keyboardMap := foldl (fun m char => <[char := Neutral]> m) ∅ ENGLISH_CHARACTERS;
     isMovingLeft := false;
     isMovingRight := false;
     letterInterval := 1;
     timeouts := {[ 1%nat := spawn (DIFFICULTY_SETTINGS difficulty) ]};
     timeoutIds := 2;
     randomCalls := 0;
     calls := [CallSetTimeout (spawn (DIFFICULTY_SETTINGS difficulty))] |}.

Definition letterAt (character : N) (x : Z) (pos : Q) : Letter :=
  {| l_element := {| style_left := inject_Z x; style_top := Qfloor pos |};
     l_character := character;
     y := pos |}.

Definition projectileAt (character : N) (x : Q) (t : Z) : Projectile :=
  {| p_element := {| style_left := x; style_top := t |};
     p_character := character |}.

(** ** Notions used in the statements *)

(** A key shoots when it is one character long and that character is an
    ASCII letter or one of the Hebrew letters of the layout; the selected
    language plays no part. *)
Definition shoots (key : list N) (c : N) : Prop :=
  key = [c] /\ (isLatinLetter c = true \/ c ∈ HEBREW_CHARACTERS).

(** Where the loop of [updateLetters] has been: the letters at the indices
    [k <= m < n] have fallen, the others are as they were. *)
Definition fallen (speed : Q) (k n : nat) (letters : list Letter) (m : nat)
  : option Letter :=
  if decide (k <= m < n)%nat then fall speed <$> letters !! m else letters !! m.

(** The test [letter.y > GAME_HEIGHT] of [updateLetters], on the letter
    once it has fallen. *)
Definition pastBottom (speed : Q) (letter : Letter) : bool :=
  Qltb (inject_Z GAME_HEIGHT) (y (fall speed letter)).

(** [n] animation frames in a row, with no other callback in between. *)
Definition frames (n : nat) (st : State) : State := Nat.iter n gameLoop st.

(** The events of play proper: frames and keys, with no spawn timer firing
    and no click on the menus. *)
Definition isPlay (e : Event) : Prop :=
  match e with
  | Frame | KeyDown _ | KeyUp _ => True
  | _ => False
  end.

(** How many times [createLetter] has been called. *)
Definition spawnCalls (st : State) : nat :=
  length (filter (fun c => c = CallCreateLetter) (calls st)).

(** Score, number of spawns and number of falling letters. *)
Definition counters (st : State) : Z * nat * nat :=
  (score st, spawnCalls st, length (fallingLetters st)).

(** What one hit does to the counters: the score goes up by one and a
    letter goes away, unless it was the last one, which is replaced. *)
Definition hitStep (a b : Z * nat * nat) : Prop :=
  let '(s, r, n) := a in
  let '(s', r', n') := b in
  s' = (s + 1)%Z /\
  ((2 <= n)%nat /\ r' = r /\ n' = (n - 1)%nat \/
   n = 1%nat /\ r' = S r /\ n' = 1%nat).

(** The projectiles that are still there after a step in which none of
    them hits a letter: those whose top was not negative before the step,
    moved up. *)
Definition survivors (ps : list Projectile) : list Projectile :=
  moveUp <$> filter (fun p => (0 <= style_top (p_element p))%Z) ps.

(** The part of the state that the heat map depends on besides the
    letters. *)
Definition sameKeyboard (st st' : State) : Prop :=
  gameIsActive st' = gameIsActive st /\ keyboardMap st' = keyboardMap st.

(** ** Notions used in the further properties *)

(** The characters letters are drawn from and keys are made for. *)
Definition alphabet (lang : Language) : list N :=
  match lang with
  | he => HEBREW_CHARACTERS
  | en => ENGLISH_CHARACTERS
  end.


(** The net displacement the movement flags ask for in one frame. *)
Definition intent (st : State) : Q :=
  ((if isMovingRight st then PLAYER_SPEED else 0) -
   (if isMovingLeft st then PLAYER_SPEED else 0))%Q.

(** The letter [createLetter] appends in a given state. *)
Definition spawned (st : State) : Letter :=
  {| l_element :=
       {| style_left :=
            inject_Z (Qfloor (random page (S (randomCalls st)) *
                              inject_Z (GAME_WIDTH - LETTER_WIDTH)));
          style_top := 0 |};
     l_character := pick (alphabet (selectedLanguage st)) (random page (randomCalls st));
     y := 0 |}.

(** The states the page can be in.  The language and difficulty buttons are
    on the start screen, which [startGame] hides and which comes back only
    through the game-over screen that [endGame] shows: they can be clicked
    only while no game is active.  Frames, keys and timeouts can come at
    any time and in any order. *)
Inductive reachable : State -> Prop :=
  | reachable_loaded : reachable loaded
  | reachable_frame st : reachable st -> reachable (gameLoop st)
  | reachable_keydown key st : reachable st -> reachable (handleKeyPress key st)
  | reachable_keyup key st : reachable st -> reachable (handleKeyUp key st)
  | reachable_timeout id st : reachable st -> reachable (timeoutFires id st)
  | reachable_language lang st :
      reachable st -> gameIsActive st = false -> reachable (selectLanguage lang st)
  | reachable_start difficulty st :
      reachable st -> gameIsActive st = false -> reachable (startGame difficulty st).

(** The spawn timer as the script means it to be: one pending timeout, the
    one [letterInterval] names, while a game is active, and none
    otherwise. *)
Definition armed (st : State) : Prop :=
  if gameIsActive st
  then exists delay, (400 <= delay)%Z /\ timeouts st = {[ letterInterval st := delay ]}
  else timeouts st = ∅.

(** A letter whose element is where its position says, at or below the top
    of the field. *)
Definition letterOk (letter : Letter) : Prop :=
  style_top (l_element letter) = Qfloor (y letter) /\ (0 <= y letter)%Q.

Definition sound (st : State) : Prop :=
  (0 <= score st)%Z /\
  (0 <= initialFallSpeed st)%Q /\ (0 <= fallSpeedIncreasePerScore st)%Q /\
  Forall letterOk (fallingLetters st).

(** Every letter at or above the bottom edge. *)
Definition inField (st : State) : Prop :=
  Forall (fun letter => (y letter <= inject_Z GAME_HEIGHT)%Q) (fallingLetters st).


(** A projectile between the player's top and one step above the field. *)
Definition inFlight (p : Projectile) : Prop :=
  (- PROJECTILE_SPEED <= style_top (p_element p) <=
     GAME_HEIGHT - player_offsetHeight page)%Z.

(** Events that a finished game ignores. *)
Definition ignoredWhenOver (e : Event) : Prop :=
  match e with
  | Frame | KeyDown _ | Timeout _ => True
  | _ => False
  end.

(** Frames, keys and timeouts: the events that need no menu. *)
Definition isInput (e : Event) : Prop :=
  match e with
  | Frame | KeyDown _ | KeyUp _ | Timeout _ => True
  | _ => False
  end.

(** Letters kept oldest first: a letter is never lower on the screen than
    one that comes before it in the array. *)
Definition oldestFirst (letters : list Letter) : Prop :=
  forall i j a b,
    (i <= j)%nat -> letters !! i = Some a -> letters !! j = Some b ->
    (y b <= y a)%Q.

(** * Properties *)

Lemma Qltb_lt (a b : Q) : Qltb a b = true <-> (a < b)%Q.
Proof.
  unfold Qltb. rewrite negb_true_iff, <- not_true_iff_false, Qle_bool_iff.
  split; [apply Qnot_le_lt | apply Qlt_not_le].
Qed.

Lemma Qltb_ge (a b : Q) : Qltb a b = false <-> (b <= a)%Q.
Proof.
  unfold Qltb. rewrite negb_false_iff. apply Qle_bool_iff.
Qed.

(** ** Rounding to the nearest double *)

Ltac Qcompare_to_order H :=
  first [ apply (proj2 (Qeq_alt _ _)) in H
        | apply (proj2 (Qlt_alt _ _)) in H
        | apply (proj2 (Qgt_alt _ _)) in H ].

Lemma pow2_pos (k : Z) : (0 < 2 ^ k)%Q.
Proof. apply Qpower_0_lt. reflexivity. Qed.

Lemma pow2_le (a b : Z) : (a <= b)%Z -> (2 ^ a <= 2 ^ b)%Q.
Proof. intros H. apply Qpower_le_compat_l; [exact H | discriminate]. Qed.

Lemma pow2_Z (n : Z) : (0 <= n)%Z -> (2 ^ n == inject_Z (2 ^ n))%Q.
Proof. intros H. symmetry. apply (Zpower_Qpower 2 n H). Qed.

Lemma pow2_sub (a b : Z) : (2 ^ (a - b) == 2 ^ a / 2 ^ b)%Q.
Proof. apply Qpower_minus. discriminate. Qed.

Lemma ilog2_spec (x : Q) :
  (0 < x)%Q -> (2 ^ ilog2 x <= x)%Q /\ (x < 2 ^ (ilog2 x + 1))%Q.
Proof.
  intros Hx. destruct x as [a b]. unfold ilog2. cbn [Qnum Qden].
  assert (Ha : (0 < a)%Z) by (unfold Qlt in Hx; cbn in Hx; lia).
  set (la := Z.log2 a). set (lb := Z.log2 (Z.pos b)).
  destruct (Z.log2_spec a Ha) as [Ha1 Ha2].
  destruct (Z.log2_spec (Z.pos b) (Pos2Z.is_pos b)) as [Hb1 Hb2].
  fold la in Ha1, Ha2. fold lb in Hb1, Hb2.
  assert (Hla : (0 <= la)%Z) by apply Z.log2_nonneg.
  assert (Hlb : (0 <= lb)%Z) by apply Z.log2_nonneg.
  assert (Hab : (a # b == inject_Z a / inject_Z (Z.pos b))%Q) by apply Qmake_Qdiv.
  assert (Hbpos : (0 < inject_Z (Z.pos b))%Q) by (unfold Qlt; cbn; lia).
  destruct (Qle_bool (2 ^ (la - lb)) (a # b)) eqn:Hc.
  - apply Qle_bool_iff in Hc. split; [exact Hc|].
    replace (la - lb + 1)%Z with ((la + 1) - lb)%Z by lia.
    rewrite pow2_sub, Hab, (pow2_Z (la + 1)), (pow2_Z lb) by lia.
    apply Qlt_shift_div_l; [rewrite <- (Zlt_Qlt 0); lia|].
    unfold Qdiv. rewrite <- Qmult_assoc, (Qmult_comm (/ _)), Qmult_assoc.
    apply Qlt_shift_div_r; [exact Hbpos|].
    rewrite <- !inject_Z_mult, <- Zlt_Qlt.
    rewrite Z.add_1_r. nia.
  - assert (Hlt : (a # b < 2 ^ (la - lb))%Q).
    { apply Qnot_le_lt. intros H. apply Qle_bool_iff in H. congruence. }
    split.
    + replace (la - lb - 1)%Z with (la - (lb + 1))%Z by lia.
      rewrite pow2_sub, Hab, (pow2_Z la), (pow2_Z (lb + 1)) by lia.
      apply Qle_shift_div_r; [rewrite <- (Zlt_Qlt 0); lia|].
      unfold Qdiv. rewrite <- Qmult_assoc, (Qmult_comm (/ _)), Qmult_assoc.
      apply Qle_shift_div_l; [exact Hbpos|].
      rewrite <- !inject_Z_mult, <- Zle_Qle.
      rewrite Z.add_1_r. nia.
    + replace (la - lb - 1 + 1)%Z with (la - lb)%Z by lia. exact Hlt.
Qed.

Lemma ilog2_mono (x y : Q) : (0 < x)%Q -> (x <= y)%Q -> (ilog2 x <= ilog2 y)%Z.
Proof.
  intros Hx Hxy.
  destruct (ilog2_spec x Hx) as [Hx1 _].
  destruct (ilog2_spec y (Qlt_le_trans _ _ _ Hx Hxy)) as [_ Hy2].
  destruct (Z.le_gt_cases (ilog2 x) (ilog2 y)) as [H | H]; [exact H|].
  exfalso. assert (Hp : (2 ^ (ilog2 y + 1) <= 2 ^ ilog2 x)%Q) by (apply pow2_le; lia).
  lra.
Qed.

Lemma rne_bounds (x : Q) : (Qfloor x <= rne x <= Qfloor x + 1)%Z.
Proof.
  unfold rne. destruct (_ ?= _)%Q; [destruct (Z.even _)| |]; lia.
Qed.

Lemma rne_mono (x y : Q) : (x <= y)%Q -> (rne x <= rne y)%Z.
Proof.
  intros Hxy. pose proof (Qfloor_resp_le x y Hxy) as Hf.
  destruct (Z.eq_dec (Qfloor x) (Qfloor y)) as [He | Hne].
  - unfold rne. rewrite He.
    destruct (x - inject_Z (Qfloor y) ?= 1 # 2)%Q eqn:Hcx;
      destruct (y - inject_Z (Qfloor y) ?= 1 # 2)%Q eqn:Hcy;
      try (destruct (Z.even (Qfloor y))); try lia;
      Qcompare_to_order Hcx; Qcompare_to_order Hcy; exfalso; lra.
  - pose proof (rne_bounds x). pose proof (rne_bounds y). lia.
Qed.

Lemma rne_Z (n : Z) : rne (inject_Z n) = n.
Proof.
  unfold rne. rewrite Qfloor_Z.
  destruct (inject_Z n - inject_Z n ?= 1 # 2)%Q eqn:Hc; [| reflexivity |].
  - Qcompare_to_order Hc. exfalso. lra.
  - Qcompare_to_order Hc. exfalso. lra.
Qed.

Lemma rne_near (x : Q) :
  (x - (1 # 2) <= inject_Z (rne x))%Q /\ (inject_Z (rne x) <= x + (1 # 2))%Q.
Proof.
  pose proof (Qfloor_le x) as Hf. pose proof (Qlt_floor x) as Hl.
  rewrite inject_Z_plus in Hl. change (inject_Z 1) with 1%Q in Hl.
  unfold rne. destruct (x - inject_Z (Qfloor x) ?= 1 # 2)%Q eqn:Hc;
    Qcompare_to_order Hc; try destruct (Z.even _);
    rewrite ?inject_Z_plus; change (inject_Z 1) with 1%Q; split; lra.
Qed.

Lemma rne_nonneg (x : Q) : (0 <= x)%Q -> (0 <= rne x)%Z.
Proof. intros H. rewrite <- (rne_Z 0). apply rne_mono. exact H. Qed.

Lemma nearest_nonneg (x : Q) : (0 <= x)%Q -> (0 <= nearest x)%Q.
Proof.
  intros H. unfold nearest. apply Qmult_le_0_compat.
  - rewrite <- (Zle_Qle 0). apply rne_nonneg. apply Qle_shift_div_l; [apply pow2_pos | lra].
  - apply Qlt_le_weak, pow2_pos.
Qed.

(** Rounding onto the grid of spacing [2 ^ k] is monotone and keeps the
    powers of two that lie on the grid. *)
Lemma grid_le_pow2 (x : Q) (k e : Z) :
  (k <= e)%Z -> (x <= 2 ^ e)%Q -> (inject_Z (rne (x / 2 ^ k)) * 2 ^ k <= 2 ^ e)%Q.
Proof.
  intros Hke Hx. pose proof (pow2_pos k) as Hk.
  assert (He : (2 ^ e == inject_Z (2 ^ (e - k)) * 2 ^ k)%Q).
  { rewrite <- pow2_Z, pow2_sub by lia. field. lra. }
  rewrite He. apply Qmult_le_compat_r; [| lra].
  rewrite <- Zle_Qle. rewrite <- (rne_Z (2 ^ (e - k))). apply rne_mono.
  apply Qle_shift_div_r; [exact Hk|]. rewrite <- He. exact Hx.
Qed.

Lemma grid_ge_pow2 (x : Q) (k e : Z) :
  (k <= e)%Z -> (2 ^ e <= x)%Q -> (2 ^ e <= inject_Z (rne (x / 2 ^ k)) * 2 ^ k)%Q.
Proof.
  intros Hke Hx. pose proof (pow2_pos k) as Hk.
  assert (He : (2 ^ e == inject_Z (2 ^ (e - k)) * 2 ^ k)%Q).
  { rewrite <- pow2_Z, pow2_sub by lia. field. lra. }
  rewrite He. apply Qmult_le_compat_r; [| lra].
  rewrite <- Zle_Qle. rewrite <- (rne_Z (2 ^ (e - k))). apply rne_mono.
  apply Qle_shift_div_l; [exact Hk|]. rewrite <- He. exact Hx.
Qed.

Lemma nearest_mono (x y : Q) : (0 < x)%Q -> (x <= y)%Q -> (nearest x <= nearest y)%Q.
Proof.
  intros Hx Hxy. assert (Hy : (0 < y)%Q) by lra.
  pose proof (ilog2_mono x y Hx Hxy) as He.
  destruct (ilog2_spec x Hx) as [_ Hx2]. destruct (ilog2_spec y Hy) as [Hy1 _].
  unfold nearest.
  destruct (Z.eq_dec (ulp x) (ulp y)) as [Hk | Hk].
  - rewrite Hk. apply Qmult_le_compat_r; [| apply Qlt_le_weak, pow2_pos].
    rewrite <- Zle_Qle. apply rne_mono.
    apply Qmult_le_compat_r; [exact Hxy|]. apply Qlt_le_weak, Qinv_lt_0_compat, pow2_pos.
  - unfold ulp in *.
    assert (Hlt : (ilog2 x < ilog2 y)%Z /\ (-1022 < ilog2 y)%Z) by lia.
    destruct Hlt as [Hlt Hn].
    apply Qle_trans with (2 ^ ilog2 y)%Q.
    + apply grid_le_pow2; [lia|].
      apply Qle_trans with (2 ^ (ilog2 x + 1))%Q; [lra | apply pow2_le; lia].
    + apply grid_ge_pow2; [lia | exact Hy1].
Qed.

Lemma double_0 : double 0 = 0%Q.
Proof. reflexivity. Qed.

Lemma double_nonneg (x : Q) : (0 <= x)%Q -> (0 <= double x)%Q.
Proof.
  intros H. unfold double. destruct (x ?= 0)%Q eqn:Hc.
  - lra.
  - Qcompare_to_order Hc. lra.
  - apply nearest_nonneg, H.
Qed.

Lemma double_nonpos (x : Q) : (x <= 0)%Q -> (double x <= 0)%Q.
Proof.
  intros H. unfold double. destruct (x ?= 0)%Q eqn:Hc.
  - lra.
  - Qcompare_to_order Hc. pose proof (nearest_nonneg (- x)). lra.
  - Qcompare_to_order Hc. lra.
Qed.

(** The result is within half a unit in the last place of the exact
    value. *)
Lemma nearest_error (x : Q) :
  (x - 2 ^ ulp x * (1 # 2) <= nearest x)%Q /\
  (nearest x <= x + 2 ^ ulp x * (1 # 2))%Q.
Proof.
  unfold nearest. set (k := ulp x). pose proof (pow2_pos k) as Hk.
  destruct (rne_near (x / 2 ^ k)) as [Hlow Hhigh].
  assert (x == x / 2 ^ k * 2 ^ k)%Q as Hx by (field; lra).
  split.
  - apply Qle_trans with ((x / 2 ^ k - (1 # 2)) * 2 ^ k)%Q.
    + apply Qle_lteq. right. field. lra.
    + apply Qmult_le_compat_r; lra.
  - apply Qle_trans with ((x / 2 ^ k + (1 # 2)) * 2 ^ k)%Q.
    + apply Qmult_le_compat_r; lra.
    + apply Qle_lteq. right. field. lra.
Qed.

(** Rounding to the nearest double is monotone. *)
Lemma double_mono (x y : Q) : (x <= y)%Q -> (double x <= double y)%Q.
Proof.
  intros Hxy.
  destruct (Qlt_le_dec 0 x) as [Hx | Hx].
  - unfold double.
    destruct (x ?= 0)%Q eqn:Hcx;
      [Qcompare_to_order Hcx; lra | Qcompare_to_order Hcx; lra |].
    destruct (y ?= 0)%Q eqn:Hcy;
      [Qcompare_to_order Hcy; lra | Qcompare_to_order Hcy; lra |].
    apply nearest_mono; assumption.
  - destruct (Qlt_le_dec y 0) as [Hy | Hy].
    + unfold double.
      destruct (x ?= 0)%Q eqn:Hcx;
        [Qcompare_to_order Hcx; lra | | Qcompare_to_order Hcx; lra].
      destruct (y ?= 0)%Q eqn:Hcy;
        [Qcompare_to_order Hcy; lra | | Qcompare_to_order Hcy; lra].
      apply Qopp_le_compat. apply nearest_mono; lra.
    + apply Qle_trans with 0%Q; [apply double_nonpos | apply double_nonneg]; assumption.
Qed.

Lemma double_proper (x y : Q) : (x == y)%Q -> (double x == double y)%Q.
Proof.
  intros H. apply Qle_antisym; apply double_mono; lra.
Qed.

(** From a quarter up, the result is within half a unit in the last place
    of the exact value, which is at most the fraction [2 ^ -53] of it. *)
Lemma double_lower (x : Q) :
  (1 # 4 <= x)%Q -> (x - x * (1 # 9007199254740992) <= double x)%Q.
Proof.
  intros Hx. unfold double.
  destruct (x ?= 0)%Q eqn:Hc;
    [Qcompare_to_order Hc; lra | Qcompare_to_order Hc; lra | clear Hc].
  assert (Hpos : (0 < x)%Q) by lra.
  destruct (ilog2_spec x Hpos) as [H1 H2].
  assert (He : (-2 <= ilog2 x)%Z).
  { destruct (Z.le_gt_cases (-2) (ilog2 x)) as [H | H]; [exact H|]. exfalso.
    assert (Hp : (2 ^ (ilog2 x + 1) <= 2 ^ (-2))%Q) by (apply pow2_le; lia).
    assert (Hq : (2 ^ (-2) == 1 # 4)%Q) by reflexivity. lra. }
  destruct (nearest_error x) as [Hlow _]. revert Hlow.
  unfold ulp. rewrite Z.max_l by lia.
  assert (Hq : (2 ^ (ilog2 x - 52) == 2 ^ ilog2 x * (1 # 4503599627370496))%Q).
  { rewrite pow2_sub. reflexivity. }
  intros Hlow. lra.
Qed.

(** ** Scheduler *)

(** C2.  While the game is active, [scheduleNextLetter] arms a timeout of
    [max(MIN_SPAWN_INTERVAL, initialSpawnInterval - score * 10)]
    milliseconds.  The delay is never below the floor of 400 ms, whatever
    the score; on the easy tier it is 10000 ms at score 0 and
    [max(400, 10000 - 500)] at score 50. *)
Theorem scheduleNextLetter_delay (st : State) :
  gameIsActive st = true ->
  let st' := scheduleNextLetter st in
  let delay :=
    Z.max MIN_SPAWN_INTERVAL
      (initialSpawnInterval st - score st * SPAWN_INTERVAL_REDUCTION_PER_SCORE) in
  timeouts st' !! letterInterval st' = Some delay /\
  (400 <= delay)%Z /\
  (initialSpawnInterval st = spawn (DIFFICULTY_SETTINGS easy) ->
   (score st = 0%Z -> delay = 10000%Z) /\
   (score st = 50%Z -> delay = Z.max 400 (10000 - 500))).
Proof.
  intros Hactive st' delay. subst st'.
  unfold scheduleNextLetter. rewrite Hactive. cbn [negb].
  split; [| split].
  - unfold setTimeout, nextInterval. cbn. apply lookup_insert_eq.
  - subst delay. unfold MIN_SPAWN_INTERVAL. lia.
  - intros Hbase. subst delay. rewrite Hbase. cbn [spawn DIFFICULTY_SETTINGS].
    unfold MIN_SPAWN_INTERVAL, SPAWN_INTERVAL_REDUCTION_PER_SCORE.
    split; intros ->; lia.
Qed.

(** ** Keyboard input *)

(** C10.  Releasing ArrowLeft or ArrowRight clears the matching flag in
    every state, active or not; pressing it sets the flag exactly when the
    game is active, and leaves it as it was otherwise. *)
Theorem arrow_keys_flags (st : State) :
  isMovingLeft (handleKeyUp ArrowLeft st) = false /\
  isMovingRight (handleKeyUp ArrowRight st) = false /\
  isMovingLeft (handleKeyPress ArrowLeft st) = gameIsActive st || isMovingLeft st /\
  isMovingRight (handleKeyPress ArrowRight st) = gameIsActive st || isMovingRight st.
Proof.
  repeat split; try reflexivity;
    unfold handleKeyPress; destruct (gameIsActive st); reflexivity.
Qed.

Lemma handleKeyPress_projectiles (st : State) (key : list N) :
  gameIsActive st = true ->
  projectiles (handleKeyPress key st) =
    match key with
    | [c] =>
        if isLatinLetter c || bool_decide (c ∈ HEBREW_CHARACTERS)
        then projectiles (createProjectile (toLowerCase c) st)
        else projectiles st
    | _ => projectiles st
    end.
Proof.
  intros Hactive. unfold handleKeyPress. rewrite Hactive. cbn [negb].
  destruct key as [| c [| c' key]];
    repeat (destruct (keyIs _ _)); try reflexivity;
    destruct (isLatinLetter c || bool_decide (c ∈ HEBREW_CHARACTERS)); reflexivity.
Qed.

(** C9 (amended).  While the game is active, a key-down enqueues exactly
    one projectile when its key is a single character that is an ASCII
    letter of either case or a Hebrew letter of the layout, whichever
    language is selected, and no other key-down enqueues one.  The new
    projectile carries the lower-cased character, its horizontal centre is
    the player's and its top is the top of the player.  A key-down that
    arrives while the game is not active changes nothing. *)
Theorem keydown_shoots (st : State) (key : list N) :
  (gameIsActive st = false -> handleKeyPress key st = st) /\
  (gameIsActive st = true ->
   (forall c, shoots key c ->
      exists proj,
        projectiles (handleKeyPress key st) = projectiles st ++ [proj] /\
        p_character proj = toLowerCase c /\
        (style_left (p_element proj) + inject_Z PROJECTILE_WIDTH / 2 ==
           playerPosition st + inject_Z PLAYER_WIDTH / 2)%Q /\
        style_top (p_element proj) = (GAME_HEIGHT - player_offsetHeight page)%Z) /\
   ((forall c, ~ shoots key c) ->
      projectiles (handleKeyPress key st) = projectiles st)).
Proof.
  split.
  - intros Hidle. unfold handleKeyPress. rewrite Hidle. reflexivity.
  - intros Hactive. rewrite (handleKeyPress_projectiles st key Hactive). split.
    + intros c [-> Hc].
      assert (isLatinLetter c || bool_decide (c ∈ HEBREW_CHARACTERS) = true) as ->.
      { destruct Hc as [-> | Hc]; [reflexivity |].
        rewrite (bool_decide_eq_true_2 _ Hc). apply orb_true_r. }
      eexists. split; [reflexivity |]. cbn.
      split; [reflexivity |]. split; [| reflexivity].
      unfold PROJECTILE_WIDTH. field.
    + intros Hnone. destruct key as [| c [| c' key]]; try reflexivity.
      destruct (isLatinLetter c) eqn:Hlatin.
      { exfalso. apply (Hnone c). split; [reflexivity | left; exact Hlatin]. }
      destruct (bool_decide (c ∈ HEBREW_CHARACTERS)) eqn:Hhebrew; [| reflexivity].
      exfalso. apply (Hnone c). split; [reflexivity | right].
      exact (bool_decide_eq_true_1 _ Hhebrew).
Qed.


(** ** Falling letters *)

Lemma set_fallingLetters_id (st : State) :
  set_fallingLetters (fallingLetters st) st = st.
Proof. destruct st; reflexivity. Qed.

Lemma updateLetters_from_safe (n : nat) : forall st,
  (n <= length (fallingLetters st))%nat ->
  (forall m letter, (m < n)%nat -> fallingLetters st !! m = Some letter ->
     pastBottom (fallSpeed st) letter = false) ->
  exists letters',
    updateLetters_from n st = set_fallingLetters letters' st /\
    forall m, letters' !! m = fallen (fallSpeed st) 0 n (fallingLetters st) m.
Proof.
  induction n as [| i IH]; intros st Hlen Hsafe.
  - exists (fallingLetters st). split; [symmetry; apply set_fallingLetters_id |].
    intros m. unfold fallen. case_decide; [lia | reflexivity].
  - cbn [updateLetters_from].
    destruct (lookup_lt_is_Some_2 (fallingLetters st) i) as [letter0 Hi]; [lia |].
    rewrite Hi. fold (pastBottom (fallSpeed st) letter0).
    rewrite (Hsafe i letter0) by (lia || assumption).
    set (st1 := set_fallingLetters _ st).
    destruct (IH st1) as (letters' & Hrun & Hlookup).
    + subst st1. cbn. rewrite length_insert. lia.
    + intros m letter Hm Hlook. subst st1. cbn in Hlook.
      rewrite list_lookup_insert_ne in Hlook by lia.
      apply (Hsafe m letter); [lia | exact Hlook].
    + exists letters'. split; [rewrite Hrun; reflexivity |].
      intros m. rewrite Hlookup. subst st1. cbn. change (fallSpeed _) with (fallSpeed st).
      unfold fallen. destruct (decide (m = i)) as [-> | Hne].
      * rewrite list_lookup_insert_eq by lia. rewrite Hi.
        repeat case_decide; try lia. reflexivity.
      * rewrite list_lookup_insert_ne by lia.
        repeat case_decide; try lia; reflexivity.
Qed.

Lemma updateLetters_from_over (n : nat) : forall st k letter,
  (k < n <= length (fallingLetters st))%nat ->
  fallingLetters st !! k = Some letter ->
  pastBottom (fallSpeed st) letter = true ->
  (forall m letter', (k < m < n)%nat -> fallingLetters st !! m = Some letter' ->
     pastBottom (fallSpeed st) letter' = false) ->
  exists letters',
    updateLetters_from n st = endGame (set_fallingLetters letters' st) /\
    forall m, letters' !! m = fallen (fallSpeed st) k n (fallingLetters st) m.
Proof.
  induction n as [| i IH]; intros st k letter Hlen Hk Hover Hsafe; [lia |].
  cbn [updateLetters_from].
  destruct (lookup_lt_is_Some_2 (fallingLetters st) i) as [letter0 Hi]; [lia |].
  rewrite Hi. fold (pastBottom (fallSpeed st) letter0).
  destruct (decide (i = k)) as [-> | Hne].
  - assert (letter0 = letter) as -> by congruence. rewrite Hover.
    eexists. split; [reflexivity |].
    intros m. unfold fallen. destruct (decide (m = k)) as [-> | Hne].
    + rewrite list_lookup_insert_eq by lia. rewrite Hk.
      case_decide; [reflexivity | lia].
    + rewrite list_lookup_insert_ne by lia. case_decide; [lia | reflexivity].
  - rewrite (Hsafe i letter0) by (lia || assumption).
    set (st1 := set_fallingLetters _ st).
    destruct (IH st1 k letter) as (letters' & Hrun & Hlookup).
    + subst st1. cbn. rewrite length_insert. lia.
    + subst st1. cbn. rewrite list_lookup_insert_ne by lia. exact Hk.
    + exact Hover.
    + intros m letter' Hm Hlook. subst st1. cbn in Hlook.
      rewrite list_lookup_insert_ne in Hlook by lia.
      apply (Hsafe m letter'); [lia | exact Hlook].
    + exists letters'. split; [rewrite Hrun; reflexivity |].
      intros m. rewrite Hlookup. subst st1. cbn. change (fallSpeed _) with (fallSpeed st).
      unfold fallen. destruct (decide (m = i)) as [-> | Hne'].
      * rewrite list_lookup_insert_eq by lia. rewrite Hi.
        repeat case_decide; try lia. reflexivity.
      * rewrite list_lookup_insert_ne by lia.
        repeat case_decide; try lia; reflexivity.
Qed.

(** The first hit of a backwards scan: among the indices below [n], the
    largest one whose element passes the test. *)
Lemma backwards_first {A : Type} (test : A -> bool) (l : list A) (n : nat) :
  (exists m a, (m < n)%nat /\ l !! m = Some a /\ test a = true) ->
  exists k a,
    (k < n)%nat /\ l !! k = Some a /\ test a = true /\
    forall m a', (k < m < n)%nat -> l !! m = Some a' -> test a' = false.
Proof.
  induction n as [| i IH]; intros (m & a & Hm & Hlook & Htest); [lia |].
  destruct (l !! i) as [b |] eqn:Hi.
  - destruct (test b) eqn:Hb.
    + exists i, b. repeat split; try assumption; try lia.
    + destruct IH as (k & c & Hk & Hkl & Hkt & Hafter).
      { exists m, a. repeat split; try assumption.
        destruct (decide (m = i)) as [-> | ?]; [congruence | lia]. }
      exists k, c. repeat split; try assumption; try lia.
      intros m' a' Hm' Hlook'. destruct (decide (m' = i)) as [-> | ?].
      * congruence.
      * apply (Hafter m' a'); [lia | assumption].
  - destruct IH as (k & c & Hk & Hkl & Hkt & Hafter).
    { exists m, a. repeat split; try assumption.
      destruct (decide (m = i)) as [-> | ?]; [congruence | lia]. }
    exists k, c. repeat split; try assumption; try lia.
    intros m' a' Hm' Hlook'. destruct (decide (m' = i)) as [-> | ?].
    * congruence.
    * apply (Hafter m' a'); [lia | assumption].
Qed.

Lemma pastBottom_true (speed : Q) (letter : Letter) :
  pastBottom speed letter = true <-> (inject_Z GAME_HEIGHT < double (y letter + speed))%Q.
Proof. apply Qltb_lt. Qed.

Lemma pastBottom_false (speed : Q) (letter : Letter) :
  pastBottom speed letter = false <-> (double (y letter + speed) <= inject_Z GAME_HEIGHT)%Q.
Proof. apply Qltb_ge. Qed.

(** C4.  [updateLetters] compares each letter with [GAME_HEIGHT] right after
    moving it, with a strict [>]; what it compares is the position the
    letter now holds, the double sum of its old position and the fall
    speed.  If every letter lands at or above [GAME_HEIGHT], a letter
    exactly on it included, the game goes on.  If some letter lands
    strictly below it, the game is over once the step returns; and the
    first such letter met by the loop (the one with the largest index,
    [k]) stops the loop: the letters at the indices below [k] are not
    moved in this tick. *)
Theorem updateLetters_bottom (st : State) :
  let speed := fallSpeed st in
  let letters := fallingLetters st in
  let st' := updateLetters st in
  ((forall letter, letter ∈ letters ->
      (double (y letter + speed) <= inject_Z GAME_HEIGHT)%Q) ->
   gameIsActive st' = gameIsActive st) /\
  ((exists letter, letter ∈ letters /\
      (inject_Z GAME_HEIGHT < double (y letter + speed))%Q) ->
   gameIsActive st' = false) /\
  (forall k letter,
     letters !! k = Some letter ->
     (inject_Z GAME_HEIGHT < double (y letter + speed))%Q ->
     (forall m letter', (k < m)%nat -> letters !! m = Some letter' ->
        (double (y letter' + speed) <= inject_Z GAME_HEIGHT)%Q) ->
     gameIsActive st' = false /\
     (forall m, (m < k)%nat -> fallingLetters st' !! m = letters !! m) /\
     (forall m, (k <= m)%nat ->
        fallingLetters st' !! m = fall speed <$> letters !! m)).
Proof.
  intros speed letters st'.
  assert (forall k letter,
     letters !! k = Some letter ->
     (inject_Z GAME_HEIGHT < double (y letter + speed))%Q ->
     (forall m letter', (k < m)%nat -> letters !! m = Some letter' ->
        (double (y letter' + speed) <= inject_Z GAME_HEIGHT)%Q) ->
     gameIsActive st' = false /\
     (forall m, (m < k)%nat -> fallingLetters st' !! m = letters !! m) /\
     (forall m, (k <= m)%nat ->
        fallingLetters st' !! m = fall speed <$> letters !! m)) as Hfirst.
  { intros k letter Hk Hover Hsafe.
    destruct (updateLetters_from_over (length letters) st k letter)
      as (letters' & Hrun & Hlookup).
    - split; [apply (lookup_lt_Some _ _ _ Hk) | reflexivity].
    - exact Hk.
    - apply pastBottom_true, Hover.
    - intros m letter' Hm Hlook. apply pastBottom_false, (Hsafe m); [lia | exact Hlook].
    - subst st'. unfold updateLetters. fold letters. rewrite Hrun. cbn.
      split; [reflexivity |]. split; intros m Hm; rewrite Hlookup; unfold fallen.
      + case_decide; [lia | reflexivity].
      + case_decide; [reflexivity |].
        change (fallingLetters st) with letters.
        rewrite (lookup_ge_None_2 letters m) by lia. reflexivity. }
  split; [| split; [| exact Hfirst]].
  - intros Hsafe.
    destruct (updateLetters_from_safe (length letters) st) as (letters' & Hrun & _).
    + reflexivity.
    + intros m letter _ Hlook. apply pastBottom_false, Hsafe.
      apply list_elem_of_lookup. exists m. exact Hlook.
    + subst st'. unfold updateLetters. fold letters. rewrite Hrun. reflexivity.
  - intros (letter & Hin & Hover).
    apply list_elem_of_lookup in Hin as [m Hm].
    destruct (backwards_first (pastBottom speed) letters (length letters))
      as (k & letter' & _ & Hk & Hover' & Hafter).
    { exists m, letter. split; [apply (lookup_lt_Some _ _ _ Hm) |].
      split; [exact Hm | apply pastBottom_true, Hover]. }
    apply (Hfirst k letter' Hk).
    + apply pastBottom_true, Hover'.
    + intros m' l' Hm' Hlook. apply pastBottom_false, (Hafter m' l'); [| exact Hlook].
      split; [lia | apply (lookup_lt_Some _ _ _ Hlook)].
Qed.

(** Whatever the letters, [updateLetters] rewrites the array of letters
    and, at most, ends the game. *)
Lemma updateLetters_from_shape (n : nat) : forall st,
  exists letters',
    length letters' = length (fallingLetters st) /\
    (updateLetters_from n st = set_fallingLetters letters' st \/
     updateLetters_from n st = endGame (set_fallingLetters letters' st)).
Proof.
  induction n as [| i IH]; intros st.
  - exists (fallingLetters st). split; [reflexivity | left].
    symmetry. apply set_fallingLetters_id.
  - cbn [updateLetters_from]. destruct (fallingLetters st !! i) as [letter0 |].
    + destruct (Qltb _ _).
      * eexists. split; [| right; reflexivity]. apply length_insert.
      * destruct (IH (set_fallingLetters
                        (<[i := fall (fallSpeed st) letter0]> (fallingLetters st)) st))
          as (letters' & Hlen & Hrun).
        exists letters'. split.
        { rewrite Hlen. cbn. apply length_insert. }
        destruct Hrun as [-> | ->]; [left | right]; reflexivity.
    + exists (fallingLetters st). split; [reflexivity | left].
      symmetry. apply set_fallingLetters_id.
Qed.

Lemma updateProjectiles_none (st : State) :
  projectiles st = [] -> updateProjectiles st = st.
Proof. intros Hnone. unfold updateProjectiles. rewrite Hnone. reflexivity. Qed.

(** A step of [updateLetters] after which the game is still active has
    moved every letter. *)
Lemma updateLetters_active (st : State) :
  gameIsActive st = true ->
  gameIsActive (updateLetters st) = true ->
  updateLetters st =
  set_fallingLetters (map (fall (fallSpeed st)) (fallingLetters st)) st.
Proof.
  intros Hactive Hstill. unfold updateLetters in *.
  destruct (decide (Forall (fun l => pastBottom (fallSpeed st) l = false)
                      (fallingLetters st))) as [Hsafe | Hover].
  - destruct (updateLetters_from_safe (length (fallingLetters st)) st)
      as (letters' & Hrun & Hlookup); [reflexivity | |].
    { intros m letter _ Hlook. rewrite Forall_forall in Hsafe.
      apply Hsafe, list_elem_of_lookup. exists m. exact Hlook. }
    rewrite Hrun. f_equal.
    apply list_eq. intros m. rewrite Hlookup, list_lookup_fmap. unfold fallen.
    case_decide; [reflexivity |].
    rewrite (lookup_ge_None_2 (fallingLetters st) m); [reflexivity | lia].
  - exfalso. apply not_Forall_Exists in Hover; [| intros l; apply _].
    apply Exists_exists in Hover as (letter & Hin & Hover).
    apply not_false_is_true in Hover.
    apply list_elem_of_lookup in Hin as [m Hm].
    destruct (backwards_first (pastBottom (fallSpeed st)) (fallingLetters st)
                (length (fallingLetters st)))
      as (k & letter' & Hk & Hkl & Hover' & Hafter).
    { exists m, letter. split; [apply (lookup_lt_Some _ _ _ Hm) |]. split; assumption. }
    destruct (updateLetters_from_over (length (fallingLetters st)) st k letter')
      as (letters2 & Hrun2 & _); try assumption; [lia |].
    rewrite Hrun2 in Hstill. discriminate Hstill.
Qed.

(** A step of [updateLetters] that stops the game has gone through
    [endGame]. *)
Lemma updateLetters_over (st : State) :
  gameIsActive st = true ->
  gameIsActive (updateLetters st) = false ->
  exists letters', updateLetters st = endGame (set_fallingLetters letters' st).
Proof.
  intros Hactive Hover. unfold updateLetters in *.
  destruct (updateLetters_from_shape (length (fallingLetters st)) st)
    as (letters' & _ & [Hrun | Hrun]).
  - rewrite Hrun in Hover. cbn in Hover. congruence.
  - exists letters'. exact Hrun.
Qed.

(** One frame without projectiles: only the player, the keys and the
    letters change. *)
Lemma gameLoop_no_projectiles (st : State) :
  projectiles st = [] ->
  let st' := gameLoop st in
  projectiles st' = [] /\
  score st' = score st /\
  initialFallSpeed st' = initialFallSpeed st /\
  fallSpeedIncreasePerScore st' = fallSpeedIncreasePerScore st /\
  (gameIsActive st' = true ->
   fallingLetters st' = map (fall (fallSpeed st)) (fallingLetters st)).
Proof.
  intros Hnone st'. subst st'. unfold gameLoop.
  destruct (gameIsActive st) eqn:Hactive; cbn [negb].
  2: { repeat split; try assumption. congruence. }
  rewrite updateProjectiles_none by exact Hnone.
  set (st3 := updateKeyboardVisuals (updatePlayerPosition st)).
  destruct (gameIsActive (updateLetters st3)) eqn:Hstill.
  - rewrite (updateLetters_active st3 Hactive Hstill). cbn.
    repeat split; try assumption.
  - destruct (updateLetters_over st3 Hactive Hstill) as [letters' ->]. cbn.
    repeat split; try assumption. discriminate.
Qed.

Lemma frames_no_projectiles (st : State) (n : nat) :
  projectiles st = [] ->
  projectiles (frames n st) = [] /\ fallSpeed (frames n st) = fallSpeed st.
Proof.
  intros Hnone. induction n as [| n [IHp IHs]]; [split; [exact Hnone | reflexivity] |].
  change (frames (S n) st) with (gameLoop (frames n st)).
  destruct (gameLoop_no_projectiles (frames n st) IHp) as (Hp & Hs & Hi & Hg & _).
  split; [exact Hp |]. rewrite <- IHs. unfold fallSpeed. rewrite Hs, Hi, Hg. reflexivity.
Qed.

(** The two ways [updateLetters] can go. *)
Lemma updateLetters_cases (st : State) :
  let letters := fallingLetters st in
  let speed := fallSpeed st in
  (Forall (fun l => pastBottom speed l = false) letters /\
   updateLetters st = set_fallingLetters (map (fall speed) letters) st) \/
  (exists k letter letters',
     letters !! k = Some letter /\ pastBottom speed letter = true /\
     updateLetters st = endGame (set_fallingLetters letters' st) /\
     forall m, letters' !! m = fallen speed k (length letters) letters m).
Proof.
  cbv zeta. unfold updateLetters.
  destruct (decide (Forall (fun l => pastBottom (fallSpeed st) l = false)
                      (fallingLetters st))) as [Hsafe | Hover].
  - left. split; [exact Hsafe |].
    destruct (updateLetters_from_safe (length (fallingLetters st)) st)
      as (letters' & Hrun & Hlookup); [reflexivity | |].
    { intros m letter _ Hlook. rewrite Forall_forall in Hsafe.
      apply Hsafe, list_elem_of_lookup. exists m. exact Hlook. }
    rewrite Hrun. f_equal.
    apply list_eq. intros m. rewrite Hlookup, list_lookup_fmap. unfold fallen.
    case_decide; [reflexivity |].
    rewrite (lookup_ge_None_2 (fallingLetters st) m); [reflexivity | lia].
  - right. apply not_Forall_Exists in Hover; [| intros l; apply _].
    apply Exists_exists in Hover as (letter & Hin & Hover).
    apply not_false_is_true in Hover.
    apply list_elem_of_lookup in Hin as [m Hm].
    destruct (backwards_first (pastBottom (fallSpeed st)) (fallingLetters st)
                (length (fallingLetters st)))
      as (k & letter' & Hk & Hkl & Hover' & Hafter).
    { exists m, letter. split; [apply (lookup_lt_Some _ _ _ Hm) |]. split; assumption. }
    destruct (updateLetters_from_over (length (fallingLetters st)) st k letter')
      as (letters2 & Hrun2 & Hlookup); try assumption; [lia |].
    exists k, letter', letters2. repeat split; assumption.
Qed.

(** A step of [updateLetters] that stops the game stopped at the first
    letter, from the last one down, that landed past the bottom. *)
Lemma updateLetters_stops (st : State) :
  gameIsActive st = true ->
  gameIsActive (updateLetters st) = false ->
  exists k letter letters',
    fallingLetters st !! k = Some letter /\
    pastBottom (fallSpeed st) letter = true /\
    (forall m letter', (k < m)%nat -> fallingLetters st !! m = Some letter' ->
       pastBottom (fallSpeed st) letter' = false) /\
    updateLetters st = endGame (set_fallingLetters letters' st) /\
    forall m, letters' !! m =
              fallen (fallSpeed st) k (length (fallingLetters st)) (fallingLetters st) m.
Proof.
  intros Hactive Hover. unfold updateLetters in *.
  destruct (decide (Forall (fun l => pastBottom (fallSpeed st) l = false)
                      (fallingLetters st))) as [Hsafe | Hsome].
  - exfalso.
    destruct (updateLetters_from_safe (length (fallingLetters st)) st)
      as (letters' & Hrun & _); [reflexivity | |].
    { intros m letter _ Hlook. rewrite Forall_forall in Hsafe.
      apply Hsafe, list_elem_of_lookup. exists m. exact Hlook. }
    rewrite Hrun in Hover. cbn in Hover. congruence.
  - apply not_Forall_Exists in Hsome; [| intros l; apply _].
    apply Exists_exists in Hsome as (letter & Hin & Hpast).
    apply not_false_is_true in Hpast.
    apply list_elem_of_lookup in Hin as [m Hm].
    destruct (backwards_first (pastBottom (fallSpeed st)) (fallingLetters st)
                (length (fallingLetters st)))
      as (k & letter' & Hk & Hkl & Hpast' & Hafter).
    { exists m, letter. split; [apply (lookup_lt_Some _ _ _ Hm) |]. split; assumption. }
    destruct (updateLetters_from_over (length (fallingLetters st)) st k letter')
      as (letters2 & Hrun2 & Hlookup); try assumption; [lia |].
    exists k, letter', letters2. split; [exact Hkl |]. split; [exact Hpast' |].
    split; [| split; assumption].
    intros m' l' Hm' Hlook. apply (Hafter m' l'); [| exact Hlook].
    split; [exact Hm' | apply (lookup_lt_Some _ _ _ Hlook)].
Qed.

(** On every tier the fall speed is at least a quarter of a pixel per
    frame. *)
Lemma tier_fall_speed (d : Difficulty) (points : Z) :
  (0 <= points)%Z ->
  (1 # 4 <= double (speed (DIFFICULTY_SETTINGS d)
                    + double (inject_Z points * increase (DIFFICULTY_SETTINGS d))))%Q.
Proof.
  intros Hpoints. assert (0 <= inject_Z points)%Q as Hq.
  { change 0%Q with (inject_Z 0). rewrite <- Zle_Qle. exact Hpoints. }
  assert (0 <= increase (DIFFICULTY_SETTINGS d))%Q as Hinc.
  { destruct d; vm_compute; discriminate. }
  pose proof (double_nonneg _ (Qmult_le_0_compat _ _ Hq Hinc)) as Hgrow.
  apply Qle_trans with (double (speed (DIFFICULTY_SETTINGS d))).
  - destruct d; vm_compute; discriminate.
  - apply double_mono. lra.
Qed.

(** Adding at least a quarter to a position between 0 and [2 ^ 50] is not
    lost to rounding: the double sum is larger than the position. *)
Lemma double_sum_grows (a b : Q) :
  (0 <= a)%Q -> (a <= inject_Z (2 ^ 50))%Q -> (1 # 4 <= b)%Q ->
  (a < double (a + b))%Q.
Proof.
  intros Ha0 Ha Hb. pose proof (double_lower (a + b)) as Hlow.
  change (inject_Z (2 ^ 50)) with (1125899906842624 # 1)%Q in Ha.
  lra.
Qed.

(** C5 (amended).  Take any run of animation frames that starts with no
    projectile in flight.  In each frame that leaves the game active,
    every falling letter's position [y] becomes the double sum of [y] and
    the fall speed, itself the double value of
    [initialFallSpeed + score * fallSpeedIncreasePerScore]: the double
    nearest to the exact sum, which need not be the exact sum.  With the
    settings of any of the three tiers, a score that is not negative and
    positions between 0 and [2 ^ 50], the fall speed is positive and every
    letter's position strictly increases.  In the frame that ends the
    game the loop stops at the first letter it finds past the bottom
    (the one with the largest index, [k]): the letters from [k] on have
    moved, those below [k] keep their position. *)
Theorem letters_fall_each_frame (st : State) (n : nat) :
  projectiles st = [] ->
  let amount :=
    double (initialFallSpeed st
            + double (inject_Z (score st) * fallSpeedIncreasePerScore st)) in
  let before := fallingLetters (frames n st) in
  let after := fallingLetters (frames (S n) st) in
  (gameIsActive (frames (S n) st) = true ->
   Forall2 (fun letter letter' =>
              y letter' = double (y letter + amount) /\
              l_character letter' = l_character letter) before after /\
   (forall d,
      initialFallSpeed st = speed (DIFFICULTY_SETTINGS d) ->
      fallSpeedIncreasePerScore st = increase (DIFFICULTY_SETTINGS d) ->
      (0 <= score st)%Z ->
      Forall (fun letter =>
                (0 <= y letter)%Q /\ (y letter <= inject_Z (2 ^ 50))%Q) before ->
      (0 < amount)%Q /\
      Forall2 (fun letter letter' => (y letter < y letter')%Q) before after)) /\
  (gameIsActive (frames n st) = true ->
   gameIsActive (frames (S n) st) = false ->
   exists k letter,
     before !! k = Some letter /\
     (inject_Z GAME_HEIGHT < double (y letter + amount))%Q /\
     (forall m letter',
        (k < m)%nat -> before !! m = Some letter' ->
        (double (y letter' + amount) <= inject_Z GAME_HEIGHT)%Q) /\
     (forall m, (m < k)%nat -> after !! m = before !! m) /\
     (forall m, (k <= m)%nat -> after !! m = fall amount <$> before !! m)).
Proof.
  intros Hnone amount before after.
  destruct (frames_no_projectiles st n Hnone) as [Hp Hs].
  subst before after.
  change (frames (S n) st) with (gameLoop (frames n st)) in *.
  change amount with (fallSpeed st). clear amount.
  split.
  - intros Hactive.
    destruct (gameLoop_no_projectiles (frames n st) Hp) as (_ & _ & _ & _ & Hfall).
    rewrite (Hfall Hactive), Hs.
    split.
    + apply Forall2_fmap_r, Forall_Forall2_diag, Forall_forall.
      intros letter _. split; reflexivity.
    + intros d Hspeed Hincrease Hscore Hrange.
      assert (1 # 4 <= fallSpeed st)%Q as Hquarter.
      { unfold fallSpeed. rewrite Hspeed, Hincrease. apply tier_fall_speed, Hscore. }
      split; [lra |].
      apply Forall2_fmap_r, Forall_Forall2_diag.
      eapply Forall_impl; [exact Hrange |]. intros letter [Hlow Hhigh]. cbn [y fall].
      apply double_sum_grows; assumption.
  - intros Hactive Hover. revert Hover. unfold gameLoop. rewrite Hactive. cbn [negb].
    rewrite (updateProjectiles_none (updatePlayerPosition (frames n st))) by exact Hp.
    set (st3 := updateKeyboardVisuals (updatePlayerPosition (frames n st))).
    assert (fallSpeed st3 = fallSpeed st) as Hspeed by (rewrite <- Hs; reflexivity).
    change (fallingLetters (frames n st)) with (fallingLetters st3).
    intros Hover.
    destruct (updateLetters_stops st3 Hactive Hover)
      as (k & letter & letters' & Hk & Hpast & Hafter & -> & Hlookup).
    rewrite Hspeed in Hpast, Hafter, Hlookup. exists k, letter.
    split; [exact Hk |]. split; [apply pastBottom_true, Hpast |].
    split; [intros m letter' Hm Hlook; apply pastBottom_false, (Hafter m), Hlook; exact Hm |].
    cbn [fallingLetters endGame clearTimeout set_gameIsActive set_fallingLetters
         set_keyboardMap set_timeouts logCall set_calls].
    split; intros m Hm; rewrite Hlookup; unfold fallen.
    + case_decide; [lia | reflexivity].
    + case_decide; [reflexivity |].
      rewrite (lookup_ge_None_2 (fallingLetters st3) m) by lia. reflexivity.
Qed.

(** ** Keyboard heat map *)

Lemma proximityMapOf_snoc (letters : list Letter) (letter : Letter) :
  proximityMapOf (letters ++ [letter]) =
  recordProximity (proximityMapOf letters) letter.
Proof. unfold proximityMapOf. rewrite foldl_app. reflexivity. Qed.

(** The first loop of [updateKeyboardVisuals] leaves, for each character,
    the largest proximity among the letters that carry it. *)
Lemma proximityMapOf_max (letters : list Letter) (char : N) :
  match proximityMapOf letters !! char with
  | None => forall letter, letter ∈ letters -> l_character letter <> char
  | Some p =>
      exists letter,
        letter ∈ letters /\ l_character letter = char /\ p = proximity letter /\
        forall letter', letter' ∈ letters -> l_character letter' = char ->
          (proximity letter' <= p)%Q
  end.
Proof.
  induction letters as [| x letters IH] using rev_ind.
  - change (proximityMapOf []) with (∅ : gmap N Q). rewrite lookup_empty.
    intros letter Hin. apply elem_of_nil in Hin as [].
  - rewrite proximityMapOf_snoc. unfold recordProximity.
    destruct (decide (l_character x = char)) as [Hx | Hx].
    + rewrite Hx. destruct (proximityMapOf letters !! char) as [p |] eqn:Hold.
      * destruct IH as (best & Hin & Hchar & -> & Hmax).
        destruct (Qltb (proximity best) (proximity x)) eqn:Hcmp.
        { rewrite lookup_insert_eq. exists x.
          split; [apply elem_of_app; right; apply list_elem_of_singleton; reflexivity |].
          split; [exact Hx |]. split; [reflexivity |].
          intros l' Hl' Hc'. apply elem_of_app in Hl' as [Hl' | Hl'].
          - apply Qltb_lt in Hcmp. specialize (Hmax l' Hl' Hc'). lra.
          - apply list_elem_of_singleton in Hl' as ->. lra. }
        { rewrite Hold. exists best.
          split; [apply elem_of_app; left; exact Hin |].
          split; [exact Hchar |]. split; [reflexivity |].
          intros l' Hl' Hc'. apply elem_of_app in Hl' as [Hl' | Hl'].
          - apply (Hmax l' Hl' Hc').
          - apply list_elem_of_singleton in Hl' as ->. apply Qltb_ge, Hcmp. }
      * rewrite lookup_insert_eq. exists x.
        split; [apply elem_of_app; right; apply list_elem_of_singleton; reflexivity |].
        split; [exact Hx |]. split; [reflexivity |].
        intros l' Hl' Hc'. apply elem_of_app in Hl' as [Hl' | Hl'].
        { destruct (IH l' Hl' Hc'). }
        { apply list_elem_of_singleton in Hl' as ->. lra. }
    + assert (forall p : gmap N Q,
                (match p !! l_character x with
                 | Some q => if Qltb q (proximity x)
                             then <[l_character x := proximity x]> p else p
                 | None => <[l_character x := proximity x]> p
                 end) !! char = p !! char) as Hsame.
      { intros p. destruct (p !! l_character x) as [q |];
          [destruct (Qltb q (proximity x)) |];
          try reflexivity; apply lookup_insert_ne, Hx. }
      rewrite Hsame. destruct (proximityMapOf letters !! char) as [p |].
      * destruct IH as (best & Hin & Hchar & -> & Hmax). exists best.
        split; [apply elem_of_app; left; exact Hin |].
        split; [exact Hchar |]. split; [reflexivity |].
        intros l' Hl' Hc'. apply elem_of_app in Hl' as [Hl' | Hl'].
        { apply (Hmax l' Hl' Hc'). }
        { apply list_elem_of_singleton in Hl' as ->. contradiction. }
      * intros l' Hl'. apply elem_of_app in Hl' as [Hl' | Hl'].
        { apply (IH l' Hl'). }
        { apply list_elem_of_singleton in Hl' as ->. exact Hx. }
Qed.

(** C6.  Take a field that is not exactly [LETTER_WIDTH] pixels high (on
    such a field the script would divide by zero).  After
    [updateKeyboardVisuals], a key of the on-screen keyboard whose
    character is carried by some falling letter is heated with intensity
    [min(p, 1)], where [p] is the largest normalised vertical position,
    the double quotient [offsetTop / (GAME_HEIGHT - LETTER_WIDTH)], among
    the letters with that character, and its lightness is the double
    value of [70 - 25 * intensity]; a key whose character no letter
    carries is reset to neutral; and [endGame] resets every key to
    neutral. *)
Theorem keyboard_heat (st : State) (char : N) :
  GAME_HEIGHT <> LETTER_WIDTH ->
  is_Some (keyboardMap st !! char) ->
  let letters := fallingLetters st in
  let st' := updateKeyboardVisuals st in
  let normalized (letter : Letter) :=
    double (inject_Z (offsetTop (l_element letter))
            / inject_Z (GAME_HEIGHT - LETTER_WIDTH)) in
  ((exists letter, letter ∈ letters /\ l_character letter = char) ->
   exists letter,
     letter ∈ letters /\ l_character letter = char /\
     (forall letter', letter' ∈ letters -> l_character letter' = char ->
        (normalized letter' <= normalized letter)%Q) /\
     let intensity := Qmin (normalized letter) 1 in
     (intensity <= 1)%Q /\
     keyboardMap st' !! char =
       Some (Heated (double (70 - double (25 * intensity))))) /\
  ((forall letter, letter ∈ letters -> l_character letter <> char) ->
   keyboardMap st' !! char = Some Neutral) /\
  keyboardMap (endGame st) !! char = Some Neutral.
Proof.
  intros _ [style Hkey] letters st' normalized.
  assert (keyboardMap st' !! char = Some (keyStyle (proximityMapOf letters) char))
    as Hstyle.
  { subst st'. cbn. rewrite map_lookup_imap, Hkey. reflexivity. }
  pose proof (proximityMapOf_max letters char) as Hmax.
  split; [| split].
  - intros (l0 & Hin0 & Hchar0). rewrite Hstyle. unfold keyStyle.
    destruct (proximityMapOf letters !! char) as [p |].
    + destruct Hmax as (best & Hin & Hchar & -> & Hmax). exists best.
      split; [exact Hin |]. split; [exact Hchar |]. split; [exact Hmax |].
      split; [apply Q.le_min_r | reflexivity].
    + destruct (Hmax l0 Hin0 Hchar0).
  - intros Hnone. rewrite Hstyle. unfold keyStyle.
    destruct (proximityMapOf letters !! char) as [p |]; [| reflexivity].
    destruct Hmax as (best & Hin & Hchar & _). destruct (Hnone best Hin Hchar).
  - cbn. rewrite lookup_fmap, Hkey. reflexivity.
Qed.

(** ** Collisions *)

Lemma scanLetters_miss (i : nat) (proj : Projectile) (st : State) (n : nat) :
  (forall m letter, (m < n)%nat -> fallingLetters st !! m = Some letter ->
     collides proj letter = false) ->
  scanLetters i proj n st = (st, false).
Proof.
  induction n as [| j IH]; intros Hmiss; [reflexivity |].
  cbn [scanLetters]. destruct (fallingLetters st !! j) as [letter |] eqn:Hj;
    [| reflexivity].
  rewrite (Hmiss j letter) by (lia || assumption).
  apply IH. intros m letter' Hm. apply Hmiss. lia.
Qed.

Lemma scanLetters_hit (i : nat) (proj : Projectile) (st : State) (n k : nat)
    (letter : Letter) :
  (k < n <= length (fallingLetters st))%nat ->
  fallingLetters st !! k = Some letter ->
  collides proj letter = true ->
  (forall m letter', (k < m < n)%nat -> fallingLetters st !! m = Some letter' ->
     collides proj letter' = false) ->
  scanLetters i proj n st = (resolveHit i k st, true).
Proof.
  induction n as [| j IH]; intros Hk Hlook Hhit Hmiss; [lia |].
  cbn [scanLetters].
  destruct (lookup_lt_is_Some_2 (fallingLetters st) j) as [letter0 Hj]; [lia |].
  rewrite Hj. destruct (decide (j = k)) as [-> | Hne].
  - assert (letter0 = letter) as -> by congruence. rewrite Hhit. reflexivity.
  - rewrite (Hmiss j letter0) by (lia || assumption).
    apply IH; [lia | exact Hlook | exact Hhit |].
    intros m letter' Hm. apply Hmiss. lia.
Qed.

Lemma overlapping_spec (a b : DOMRect) :
  overlapping a b = true <->
  (r_left a < r_right b /\ r_left b < r_right a /\
   r_top a < r_bottom b /\ r_top b < r_bottom a)%Q.
Proof.
  unfold overlapping. rewrite !andb_true_iff, !Qltb_lt. tauto.
Qed.

(** C1.  Scanning the letters for one projectile, from the last letter
    down: the first letter met whose character is the upper-cased
    character of the projectile and whose rectangle strictly overlaps the
    projectile's on both axes resolves a hit and ends the scan.  The hit
    adds exactly 1 to the score, removes that projectile and that letter
    and no other (if the board is thereby empty, one letter is respawned,
    see C3).  When no letter passes both tests, a same-character letter
    that does not overlap included, nothing changes and no hit is
    reported. *)
Theorem first_collision_hits (st : State) (i : nat) (proj : Projectile) :
  let letters := fallingLetters st in
  let scan := scanLetters i proj (length letters) st in
  (forall letter,
     collides proj letter = true <->
     toUpperCase (p_character proj) = l_character letter /\
     (r_left (projRectOf proj) < r_right (letterRectOf letter) /\
      r_left (letterRectOf letter) < r_right (projRectOf proj) /\
      r_top (projRectOf proj) < r_bottom (letterRectOf letter) /\
      r_top (letterRectOf letter) < r_bottom (projRectOf proj))%Q) /\
  (forall k letter,
     letters !! k = Some letter ->
     collides proj letter = true ->
     (forall m letter', (k < m)%nat -> letters !! m = Some letter' ->
        collides proj letter' = false) ->
     exists st' respawned,
       scan = (st', true) /\
       score st' = (score st + 1)%Z /\
       projectiles st' = delete i (projectiles st) /\
       fallingLetters st' = delete k letters ++ respawned /\
       (respawned = [] \/ delete k letters = [] /\ length respawned = 1%nat)) /\
  ((forall letter, letter ∈ letters -> collides proj letter = false) ->
   scan = (st, false)).
Proof.
  intros letters scan. split; [| split].
  - intros letter. unfold collides.
    rewrite andb_true_iff, N.eqb_eq, overlapping_spec. reflexivity.
  - intros k letter Hk Hhit Hmiss.
    exists (resolveHit i k st). subst scan.
    rewrite (scanLetters_hit i proj st (length letters) k letter);
      [| split; [apply (lookup_lt_Some _ _ _ Hk) | reflexivity]
       | exact Hk | exact Hhit
       | intros m letter' Hm; apply Hmiss; lia].
    unfold resolveHit. cbn [fallingLetters set_fallingLetters set_projectiles set_score].
    fold letters.
    destruct (length (delete k letters) =? 0)%nat eqn:Hempty.
    + apply Nat.eqb_eq, nil_length_inv in Hempty.
      eexists. split; [reflexivity |].
      unfold scheduleNextLetter. destruct (gameIsActive _); cbn; rewrite Hempty;
        (split; [reflexivity |]); (split; [reflexivity |]);
        (split; [reflexivity |]); right; split; reflexivity.
    + exists []. split; [reflexivity |]. cbn.
      split; [reflexivity |]. split; [reflexivity |].
      split; [rewrite app_nil_r; reflexivity | left; reflexivity].
  - intros Hmiss. subst scan. apply scanLetters_miss.
    intros m letter _ Hlook. apply Hmiss, list_elem_of_lookup. exists m. exact Hlook.
Qed.

(** ** Hits and the board-cleared respawn *)

Lemma spawnCalls_logCall (c : Call) (st : State) :
  spawnCalls (logCall c st) =
  (spawnCalls st + if decide (c = CallCreateLetter) then 1 else 0)%nat.
Proof.
  unfold spawnCalls, logCall. cbn [calls set_calls].
  rewrite filter_app, length_app. f_equal.
  rewrite filter_cons, filter_nil. case_decide; reflexivity.
Qed.

Lemma clearTimeout_counters (id : nat) (st : State) :
  counters (clearTimeout id st) = counters st.
Proof.
  unfold counters, clearTimeout. rewrite spawnCalls_logCall.
  rewrite decide_False by discriminate. cbn. rewrite Nat.add_0_r. reflexivity.
Qed.

Lemma scheduleNextLetter_counters (st : State) :
  counters (scheduleNextLetter st) = counters st.
Proof.
  unfold scheduleNextLetter. destruct (gameIsActive st); cbn [negb]; [| reflexivity].
  unfold counters, setTimeout. rewrite spawnCalls_logCall.
  rewrite decide_False by discriminate. cbn. rewrite Nat.add_0_r. reflexivity.
Qed.

Lemma createLetter_counters (st : State) :
  counters (createLetter st) =
  (score st, S (spawnCalls st), S (length (fallingLetters st))).
Proof.
  unfold counters. cbv beta iota delta [createLetter Math_random].
  rewrite spawnCalls_logCall, decide_True by reflexivity.
  cbn [score logCall set_calls set_fallingLetters set_randomCalls fallingLetters].
  rewrite length_app. cbn [length].
  rewrite !Nat.add_1_r. reflexivity.
Qed.

Lemma resolveHit_counters (i j : nat) (st : State) :
  (j < length (fallingLetters st))%nat ->
  hitStep (counters st) (counters (resolveHit i j st)).
Proof.
  intros Hj. unfold resolveHit.
  cbn [fallingLetters set_fallingLetters set_projectiles set_score].
  pose proof (length_delete (fallingLetters st) j (lookup_lt_is_Some_2 _ _ Hj)) as Hlen.
  destruct (length (delete j (fallingLetters st)) =? 0)%nat eqn:Hempty.
  - apply Nat.eqb_eq in Hempty.
    rewrite scheduleNextLetter_counters, createLetter_counters.
    change (spawnCalls (clearTimeout ?id ?s)) with (counters (clearTimeout id s)).1.2.
    rewrite clearTimeout_counters. cbn. rewrite Hempty.
    split; [reflexivity | right]. unfold spawnCalls.
    split; [lia | split; reflexivity].
  - apply Nat.eqb_neq in Hempty. unfold counters, hitStep. cbn.
    split; [reflexivity | left]. unfold spawnCalls.
    split; [lia | split; [reflexivity | exact Hlen]].
Qed.

Lemma scanLetters_counters (i : nat) (proj : Projectile) (st : State) (n : nat) :
  (n <= length (fallingLetters st))%nat ->
  rtc hitStep (counters st) (counters (scanLetters i proj n st).1).
Proof.
  induction n as [| j IH]; intros Hn; [apply rtc_refl |].
  cbn [scanLetters]. destruct (fallingLetters st !! j) as [letter |];
    [| apply rtc_refl].
  destruct (collides proj letter).
  - apply rtc_once, resolveHit_counters. lia.
  - apply IH. lia.
Qed.

Lemma updateProjectile_counters (i : nat) (st : State) :
  rtc hitStep (counters st) (counters (updateProjectile i st)).
Proof.
  unfold updateProjectile. destruct (projectiles st !! i) as [proj0 |];
    [| apply rtc_refl].
  set (st1 := set_projectiles _ st).
  pose proof (scanLetters_counters i (moveUp proj0) st1
                (length (fallingLetters st1)) (le_n _)) as Hscan.
  destruct (scanLetters _ _ _ st1) as [st2 hasCollided]. cbn [fst] in Hscan.
  change (counters st1) with (counters st) in Hscan.
  destruct hasCollided; [exact Hscan |].
  destruct (style_top (p_element proj0) <? 0)%Z; exact Hscan.
Qed.

Lemma updateProjectiles_from_counters (n : nat) : forall st,
  rtc hitStep (counters st) (counters (updateProjectiles_from n st)).
Proof.
  induction n as [| i IH]; intros st; [apply rtc_refl |].
  cbn [updateProjectiles_from].
  etrans; [apply updateProjectile_counters | apply IH].
Qed.

Lemma updateLetters_counters (st : State) :
  counters (updateLetters st) = counters st.
Proof.
  unfold updateLetters.
  destruct (updateLetters_from_shape (length (fallingLetters st)) st)
    as (letters' & Hlen & [-> | ->]); unfold counters, spawnCalls; cbn;
    rewrite ?filter_app, ?length_app, Hlen; cbn; rewrite ?Nat.add_0_r; reflexivity.
Qed.

Lemma gameLoop_counters (st : State) :
  rtc hitStep (counters st) (counters (gameLoop st)).
Proof.
  unfold gameLoop. destruct (gameIsActive st); cbn [negb]; [| apply rtc_refl].
  rewrite updateLetters_counters.
  change (counters (updateKeyboardVisuals ?s)) with (counters s).
  apply (updateProjectiles_from_counters _ (updatePlayerPosition st)).
Qed.

Lemma handleKeyPress_counters (key : list N) (st : State) :
  counters (handleKeyPress key st) = counters st.
Proof.
  unfold handleKeyPress. destruct (gameIsActive st); cbn [negb]; [| reflexivity].
  destruct key as [| c [| c' key]];
    repeat (destruct (keyIs _ _)); try reflexivity;
    destruct (isLatinLetter c || bool_decide (c ∈ HEBREW_CHARACTERS)); reflexivity.
Qed.

Lemma handleKeyUp_counters (key : list N) (st : State) :
  counters (handleKeyUp key st) = counters st.
Proof.
  unfold handleKeyUp. repeat (destruct (keyIs _ _)); reflexivity.
Qed.

Lemma run_counters (events : list Event) : forall st,
  Forall isPlay events ->
  rtc hitStep (counters st) (counters (run events st)).
Proof.
  induction events as [| e events IH]; intros st Hplay; [apply rtc_refl |].
  apply Forall_cons in Hplay as [He Hplay].
  change (run (e :: events) st) with (run events (handle e st)).
  etrans; [| apply IH, Hplay].
  destruct e; try destruct He; cbn [handle].
  - apply gameLoop_counters.
  - rewrite handleKeyPress_counters. apply rtc_refl.
  - rewrite handleKeyUp_counters. apply rtc_refl.
Qed.

(** Counting along a sequence of hits that starts with [n >= 1] letters:
    the first [n - 1] hits only remove letters, and from the [n]-th on each
    hit clears the board and respawns one letter. *)
Lemma hits_count (a b : Z * nat * nat) :
  rtc hitStep a b ->
  (1 <= a.2)%nat ->
  let hits := (b.1.1 - a.1.1)%Z in
  (0 <= hits)%Z /\
  ((hits < Z.of_nat a.2)%Z /\ b.1.2 = a.1.2 /\
     Z.of_nat b.2 = (Z.of_nat a.2 - hits)%Z \/
   (Z.of_nat a.2 <= hits)%Z /\
     Z.of_nat b.1.2 = (Z.of_nat a.1.2 + hits - Z.of_nat a.2 + 1)%Z /\
     b.2 = 1%nat).
Proof.
  intros Hrun Hn. cbv zeta. revert b Hrun. apply rtc_ind_r.
  - lia.
  - intros b c _ Hstep IH.
    destruct a as [[s r] n], b as [[s1 r1] n1], c as [[s2 r2] n2].
    cbn in *. lia.
Qed.

(** C3.  When a hit removes the last falling letter, the same call of
    [resolveHit] cancels the pending spawn timeout, spawns exactly one
    letter at the top and arms a new timeout with the interval of the new
    score, in this order and with nothing else.  Along any play that
    starts with [N >= 1] letters and in which no spawn timer fires, the
    board is never empty after a step; no respawn happens before the
    [N]-th hit; and once [N] hits are resolved the [N] letters are gone,
    the respawn has happened exactly once and its letter is the only one
    on the board. *)
Theorem board_cleared_respawn (st : State) :
  (forall i j,
     gameIsActive st = true ->
     delete j (fallingLetters st) = [] ->
     let st' := resolveHit i j st in
     calls st' =
       calls st ++ [CallClearTimeout (letterInterval st); CallCreateLetter;
                    CallSetTimeout (nextInterval st')] /\
     (exists fresh,
        fallingLetters st' = [fresh] /\ y fresh = 0%Q /\
        style_top (l_element fresh) = 0%Z) /\
     letterInterval st' = timeoutIds st /\
     timeouts st' =
       <[letterInterval st' := nextInterval st']>
         (delete (letterInterval st) (timeouts st))) /\
  (forall events,
     Forall isPlay events ->
     (1 <= length (fallingLetters st))%nat ->
     let st' := run events st in
     let N := Z.of_nat (length (fallingLetters st)) in
     (1 <= length (fallingLetters st'))%nat /\
     ((score st' < score st + N)%Z -> spawnCalls st' = spawnCalls st) /\
     (score st' = (score st + N)%Z ->
      spawnCalls st' = S (spawnCalls st) /\
      length (fallingLetters st') = 1%nat)).
Proof.
  split.
  - intros i j Hactive Hempty st'. subst st'. unfold resolveHit.
    cbn [fallingLetters set_fallingLetters set_projectiles set_score].
    rewrite Hempty. cbn [length Nat.eqb].
    unfold scheduleNextLetter.
    cbv beta iota delta [createLetter Math_random clearTimeout].
    cbn [gameIsActive logCall set_calls set_fallingLetters set_randomCalls
         set_timeouts set_projectiles set_score negb].
    rewrite Hactive. cbn [negb]. cbn. rewrite <- !app_assoc.
    split; [reflexivity |]. split; [| split; reflexivity].
    eexists. split; [reflexivity |]. split; reflexivity.
  - intros events Hplay Hn st' N.
    pose proof (hits_count _ _ (run_counters events st Hplay) Hn) as Hcount.
    cbn in Hcount. fold st' in Hcount. fold N in Hcount.
    destruct Hcount as [Hhits Hcount]. repeat split; lia.
Qed.

(** ** Projectiles *)

Lemma scheduleNextLetter_fields (st : State) :
  score (scheduleNextLetter st) = score st /\
  projectiles (scheduleNextLetter st) = projectiles st /\
  fallingLetters (scheduleNextLetter st) = fallingLetters st /\
  sameKeyboard st (scheduleNextLetter st).
Proof.
  unfold scheduleNextLetter, sameKeyboard.
  destruct (gameIsActive st) eqn:Hactive; cbn; rewrite ?Hactive;
    repeat split; reflexivity.
Qed.

Lemma resolveHit_fields (i j : nat) (st : State) :
  score (resolveHit i j st) = (score st + 1)%Z /\
  projectiles (resolveHit i j st) = delete i (projectiles st) /\
  sameKeyboard st (resolveHit i j st).
Proof.
  unfold resolveHit.
  cbn [fallingLetters set_fallingLetters set_projectiles set_score].
  destruct (length (delete j (fallingLetters st)) =? 0)%nat;
    [| repeat split; reflexivity].
  match goal with
  | |- context [scheduleNextLetter ?s] =>
      destruct (scheduleNextLetter_fields s) as (-> & -> & _ & Hkeys)
  end.
  unfold sameKeyboard in *. destruct Hkeys as [-> ->].
  repeat split; reflexivity.
Qed.

Lemma delete_insert_same {A : Type} (l : list A) (i : nat) (x : A) :
  delete i (<[i := x]> l) = delete i l.
Proof.
  rewrite !delete_take_drop, take_insert_ge, drop_insert_lt by lia. reflexivity.
Qed.

Lemma updateProjectile_miss (i : nat) (st : State) (p : Projectile) :
  projectiles st !! i = Some p ->
  (forall letter, letter ∈ fallingLetters st -> collides (moveUp p) letter = false) ->
  updateProjectile i st =
  set_projectiles
    (if (style_top (p_element p) <? 0)%Z then delete i (projectiles st)
     else <[i := moveUp p]> (projectiles st)) st.
Proof.
  intros Hi Hmiss. unfold updateProjectile. rewrite Hi.
  rewrite scanLetters_miss.
  - destruct (style_top (p_element p) <? 0)%Z; cbn; [| reflexivity].
    rewrite delete_insert_same. reflexivity.
  - intros m letter _ Hlook. apply Hmiss, list_elem_of_lookup. exists m. exact Hlook.
Qed.

Lemma survivors_snoc (ps : list Projectile) (p : Projectile) :
  survivors (ps ++ [p]) =
  survivors ps ++ (if (style_top (p_element p) <? 0)%Z then [] else [moveUp p]).
Proof.
  unfold survivors. rewrite filter_app, fmap_app. f_equal.
  rewrite filter_cons, filter_nil.
  destruct (Z.ltb_spec (style_top (p_element p)) 0); case_decide; try lia; reflexivity.
Qed.

Lemma updateProjectiles_from_misses (n : nat) : forall st,
  (n <= length (projectiles st))%nat ->
  (forall m p letter, (m < n)%nat -> projectiles st !! m = Some p ->
     letter ∈ fallingLetters st -> collides (moveUp p) letter = false) ->
  updateProjectiles_from n st =
  set_projectiles (survivors (take n (projectiles st)) ++ drop n (projectiles st)) st.
Proof.
  induction n as [| i IH]; intros st Hn Hmiss.
  - cbn. rewrite drop_0. destruct st; reflexivity.
  - cbn [updateProjectiles_from].
    destruct (lookup_lt_is_Some_2 (projectiles st) i) as [p Hi]; [lia |].
    rewrite (updateProjectile_miss i st p Hi) by (intros l; apply (Hmiss i); [lia | exact Hi]).
    rewrite (take_S_r _ _ _ Hi), survivors_snoc.
    set (ps1 := if (style_top (p_element p) <? 0)%Z then _ else _).
    assert (take i ps1 = take i (projectiles st)) as Htake.
    { subst ps1. destruct (_ <? _)%Z.
      - rewrite delete_take_drop. apply take_app_length'.
        rewrite length_take_le; lia.
      - apply take_insert_ge. lia. }
    assert (drop i ps1 =
            (if (style_top (p_element p) <? 0)%Z then [] else [moveUp p]) ++
            drop (S i) (projectiles st)) as Hdrop.
    { subst ps1. destruct (_ <? _)%Z.
      - rewrite delete_take_drop. apply drop_app_length'.
        rewrite length_take_le; lia.
      - rewrite insert_take_drop by lia. rewrite drop_app_length'; [reflexivity |].
        rewrite length_take_le; lia. }
    rewrite IH.
    + cbn [projectiles set_projectiles]. rewrite Htake, Hdrop, <- app_assoc. reflexivity.
    + cbn [projectiles set_projectiles]. subst ps1. destruct (_ <? _)%Z.
      * rewrite length_delete by (eexists; exact Hi). lia.
      * rewrite length_insert. lia.
    + intros m q letter Hm Hq. cbn [projectiles set_projectiles fallingLetters] in *.
      apply (Hmiss m); [lia |].
      rewrite <- (lookup_take_lt _ i m) by lia.
      rewrite <- Htake, lookup_take_lt by lia. exact Hq.
Qed.

(** Neither the hit branch nor the inner loop looks at the array of
    projectiles, except to remove the one that hit. *)
Lemma resolveHit_relocate (i j : nat) (qs : list Projectile) (st : State) :
  resolveHit i j (set_projectiles qs st) =
  set_projectiles (delete i qs) (resolveHit i j st).
Proof.
  destruct st as [? ? ? ? ? active ? letters ? ? ? ? ? ? ? ? ?].
  unfold resolveHit.
  cbn [fallingLetters set_fallingLetters set_projectiles set_score projectiles score].
  destruct (length (delete j letters) =? 0)%nat; [| reflexivity].
  destruct active; reflexivity.
Qed.

Lemma scanLetters_relocate (i : nat) (proj : Projectile) (qs : list Projectile)
    (st : State) (n : nat) :
  scanLetters i proj n (set_projectiles qs st) =
  (let '(st', hit) := scanLetters i proj n st in
   (set_projectiles (if hit then delete i qs else qs) st', hit)).
Proof.
  induction n as [| j IH]; [reflexivity |].
  cbn [scanLetters]. change (fallingLetters (set_projectiles qs st)) with (fallingLetters st).
  destruct (fallingLetters st !! j) as [letter |]; [| reflexivity].
  destruct (collides proj letter); [| exact IH].
  rewrite resolveHit_relocate. reflexivity.
Qed.

Lemma delete_app_l {A : Type} (l k : list A) (i : nat) :
  (i < length l)%nat -> delete i (l ++ k) = delete i l ++ k.
Proof.
  revert i. induction l as [| x l IH]; intros [| i] Hi; cbn in *; try lia.
  - reflexivity.
  - f_equal. apply IH. lia.
Qed.

Lemma set_projectiles_id (st : State) : set_projectiles (projectiles st) st = st.
Proof. destruct st; reflexivity. Qed.

(** Projectiles behind the one whose turn it is are carried along
    untouched. *)
Lemma updateProjectile_append (i : nat) (extra : list Projectile) (st : State) :
  (i < length (projectiles st))%nat ->
  updateProjectile i (set_projectiles (projectiles st ++ extra) st) =
  set_projectiles (projectiles (updateProjectile i st) ++ extra) (updateProjectile i st).
Proof.
  intros Hi. destruct (lookup_lt_is_Some_2 (projectiles st) i Hi) as [p Hp].
  unfold updateProjectile.
  change (projectiles (set_projectiles (projectiles st ++ extra) st))
    with (projectiles st ++ extra).
  rewrite lookup_app_l, Hp by exact Hi. cbv zeta.
  repeat match goal with
         | |- context [fallingLetters (set_projectiles ?a ?b)] =>
             change (fallingLetters (set_projectiles a b)) with (fallingLetters b)
         | |- context [set_projectiles ?a (set_projectiles ?b st)] =>
             change (set_projectiles a (set_projectiles b st)) with (set_projectiles a st)
         end.
  rewrite insert_app_l by exact Hi.
  rewrite (scanLetters_relocate i (moveUp p) (<[i := moveUp p]> (projectiles st) ++ extra)).
  rewrite (scanLetters_relocate i (moveUp p) (<[i := moveUp p]> (projectiles st))).
  destruct (scanLetters i (moveUp p) (length (fallingLetters st)) st) as [st' hit].
  assert (i < length (<[i := moveUp p]> (projectiles st)))%nat as Hi'
    by (rewrite length_insert; exact Hi).
  destruct hit.
  - cbn [projectiles set_projectiles]. rewrite delete_app_l by exact Hi'. reflexivity.
  - destruct (style_top (p_element p) <? 0)%Z.
    + cbn [projectiles set_projectiles]. rewrite delete_app_l by exact Hi'. reflexivity.
    + reflexivity.
Qed.

Lemma updateProjectile_length (i : nat) (st : State) :
  (i < length (projectiles st))%nat ->
  (i <= length (projectiles (updateProjectile i st)))%nat.
Proof.
  intros Hi. destruct (lookup_lt_is_Some_2 (projectiles st) i Hi) as [p Hp].
  unfold updateProjectile. rewrite Hp. cbv zeta.
  change (fallingLetters (set_projectiles (<[i := moveUp p]> (projectiles st)) st))
    with (fallingLetters st).
  rewrite scanLetters_relocate.
  destruct (scanLetters i (moveUp p) (length (fallingLetters st)) st) as [st' hit].
  assert (is_Some (<[i := moveUp p]> (projectiles st) !! i)) as Hsome.
  { apply lookup_lt_is_Some_2. rewrite length_insert. exact Hi. }
  destruct hit; [| destruct (style_top (p_element p) <? 0)%Z];
    cbn [projectiles set_projectiles];
    rewrite ?length_delete, ?length_insert by exact Hsome; lia.
Qed.

Lemma updateProjectiles_from_append (extra : list Projectile) (n : nat) : forall st,
  (n <= length (projectiles st))%nat ->
  updateProjectiles_from n (set_projectiles (projectiles st ++ extra) st) =
  set_projectiles (projectiles (updateProjectiles_from n st) ++ extra)
    (updateProjectiles_from n st).
Proof.
  induction n as [| i IH]; intros st Hn; [reflexivity |].
  cbn [updateProjectiles_from].
  rewrite updateProjectile_append by lia.
  apply IH, updateProjectile_length. lia.
Qed.

(** C8 (amended).  [updateProjectiles] takes the projectiles one by one,
    the last of the array first.  Each is moved up by [PROJECTILE_SPEED]
    and then, at its new position, scanned against the falling letters as
    they stand.  If it hits none, it is dropped when its top was already
    negative before this step's move, and kept, moved, otherwise; the
    other projectiles are then processed on the same letters.  If it hits
    one, the first found from the last letter down, it scores and is
    removed whatever its top, and the other projectiles are processed on
    the state the hit leaves.  So a projectile that crosses the top in
    this step stays until the next step, every projectile present at the
    start of the step is scanned, and when no projectile hits a letter the
    projectiles left are exactly those whose top was at least 0 before the
    step, each moved up. *)
Theorem projectiles_move_scan_drop (st : State) :
  (forall p,
     style_top (p_element (moveUp p)) =
     (style_top (p_element p) - PROJECTILE_SPEED)%Z) /\
  (projectiles st = [] -> updateProjectiles st = st) /\
  (forall ps p,
     projectiles st = ps ++ [p] ->
     (forall letter,
        letter ∈ fallingLetters st -> collides (moveUp p) letter = false) ->
     let rest := updateProjectiles (set_projectiles ps st) in
     updateProjectiles st =
     set_projectiles
       (projectiles rest ++
        (if (style_top (p_element p) <? 0)%Z then [] else [moveUp p]))
       rest) /\
  (forall ps p,
     projectiles st = ps ++ [p] ->
     (exists letter,
        letter ∈ fallingLetters st /\ collides (moveUp p) letter = true) ->
     exists k letter,
       fallingLetters st !! k = Some letter /\
       collides (moveUp p) letter = true /\
       (forall m letter',
          (k < m)%nat -> fallingLetters st !! m = Some letter' ->
          collides (moveUp p) letter' = false) /\
       let hit := resolveHit (length ps) k (set_projectiles (ps ++ [moveUp p]) st) in
       score hit = (score st + 1)%Z /\
       projectiles hit = ps /\
       updateProjectiles st = updateProjectiles hit) /\
  ((forall p letter,
      p ∈ projectiles st -> letter ∈ fallingLetters st ->
      collides (moveUp p) letter = false) ->
   updateProjectiles st =
   set_projectiles
     (moveUp <$> filter (fun p => (0 <= style_top (p_element p))%Z) (projectiles st))
     st).
Proof.
  assert (forall ps p,
            projectiles st = ps ++ [p] ->
            projectiles st !! length ps = Some p /\
            <[length ps := moveUp p]> (projectiles st) = ps ++ [moveUp p] /\
            delete (length ps) (projectiles st) = ps /\
            updateProjectiles st =
              updateProjectiles_from (length ps) (updateProjectile (length ps) st))
    as Hlast.
  { intros ps p Hps. unfold updateProjectiles. rewrite Hps, length_app, Nat.add_1_r.
    repeat split.
    - apply list_lookup_middle. reflexivity.
    - rewrite insert_app_r_alt, Nat.sub_diag by lia. reflexivity.
    - rewrite delete_take_drop, take_app_length, drop_ge
        by (rewrite length_app; cbn; lia).
      apply app_nil_r. }
  split; [reflexivity |]. split; [apply updateProjectiles_none |].
  split; [| split].
  - intros ps p Hps Hmiss rest.
    destruct (Hlast ps p Hps) as (Hp & Hinsert & Hdelete & ->).
    rewrite (updateProjectile_miss _ st p Hp Hmiss), Hinsert, Hdelete.
    set (kept := if (style_top (p_element p) <? 0)%Z then [] else [moveUp p]).
    assert ((if (style_top (p_element p) <? 0)%Z then ps else ps ++ [moveUp p])
            = ps ++ kept) as ->.
    { subst kept. destruct (_ <? _)%Z; [symmetry; apply app_nil_r | reflexivity]. }
    change (set_projectiles (ps ++ kept) st)
      with (set_projectiles (projectiles (set_projectiles ps st) ++ kept)
              (set_projectiles ps st)).
    rewrite updateProjectiles_from_append by reflexivity. reflexivity.
  - intros ps p Hps (letter & Hin & Hhit).
    destruct (Hlast ps p Hps) as (Hp & Hinsert & Hdelete & ->).
    apply list_elem_of_lookup in Hin as [m Hm].
    destruct (backwards_first (collides (moveUp p)) (fallingLetters st)
                (length (fallingLetters st)))
      as (k & letter' & Hk & Hkl & Hhit' & Hafter).
    { exists m, letter. split; [apply (lookup_lt_Some _ _ _ Hm) |]. split; assumption. }
    exists k, letter'. split; [exact Hkl |]. split; [exact Hhit' |]. split.
    { intros m' l' Hm' Hlook. apply (Hafter m' l'); [| exact Hlook].
      split; [exact Hm' | apply (lookup_lt_Some _ _ _ Hlook)]. }
    cbv zeta.
    destruct (resolveHit_fields (length ps) k (set_projectiles (ps ++ [moveUp p]) st))
      as (Hscore & Hprojectiles & _).
    cbn [score projectiles set_projectiles] in Hscore, Hprojectiles.
    assert (delete (length ps) (ps ++ [moveUp p]) = ps) as Hgone.
    { rewrite delete_take_drop, take_app_length, drop_ge
        by (rewrite length_app; cbn; lia).
      apply app_nil_r. }
    rewrite Hgone in Hprojectiles.
    split; [exact Hscore |]. split; [exact Hprojectiles |].
    unfold updateProjectiles. rewrite Hprojectiles. f_equal.
    unfold updateProjectile. rewrite Hp, Hinsert. cbv zeta.
    rewrite (scanLetters_hit (length ps) (moveUp p) _ _ k letter');
      [reflexivity | | exact Hkl | exact Hhit' |].
    + split; [exact Hk | reflexivity].
    + intros m' l' Hm' Hlook. apply (Hafter m' l'); [exact Hm' | exact Hlook].
  - intros Hmiss. unfold updateProjectiles.
    rewrite updateProjectiles_from_misses.
    + rewrite firstn_all, drop_all, app_nil_r. reflexivity.
    + reflexivity.
    + intros m p letter _ Hp. apply Hmiss, list_elem_of_lookup. exists m. exact Hp.
Qed.

Lemma sameKeyboard_trans (a b c : State) :
  sameKeyboard a b -> sameKeyboard b c -> sameKeyboard a c.
Proof. unfold sameKeyboard. intros [-> ->] [-> ->]. split; reflexivity. Qed.

Lemma scanLetters_keyboard (i : nat) (proj : Projectile) (st : State) (n : nat) :
  sameKeyboard st (scanLetters i proj n st).1.
Proof.
  induction n as [| j IH]; [split; reflexivity |].
  cbn [scanLetters]. destruct (fallingLetters st !! j) as [letter |];
    [| split; reflexivity].
  destruct (collides proj letter); [| exact IH].
  apply resolveHit_fields.
Qed.

Lemma updateProjectile_keyboard (i : nat) (st : State) :
  sameKeyboard st (updateProjectile i st).
Proof.
  unfold updateProjectile. destruct (projectiles st !! i) as [proj0 |];
    [| split; reflexivity].
  set (st1 := set_projectiles _ st).
  pose proof (scanLetters_keyboard i (moveUp proj0) st1
                (length (fallingLetters st1))) as Hscan.
  destruct (scanLetters _ _ _ st1) as [st2 hasCollided]. cbn [fst] in Hscan.
  destruct hasCollided; [exact Hscan |].
  destruct (style_top (p_element proj0) <? 0)%Z; exact Hscan.
Qed.

Lemma updateProjectiles_from_keyboard (n : nat) : forall st,
  sameKeyboard st (updateProjectiles_from n st).
Proof.
  induction n as [| i IH]; intros st; [split; reflexivity |].
  cbn [updateProjectiles_from].
  eapply sameKeyboard_trans; [apply updateProjectile_keyboard | apply IH].
Qed.

(** ** The frame *)

(** C7 (amended).  In a frame of an active game the key styles are
    computed after the player and the projectiles have been updated and the
    hits resolved, but before the letters fall and the loss is checked:
    they are derived from the letters as [updateProjectiles] leaves them
    ([mid] below), and only then are these letters moved down.  If the
    letters' move ends the game, every key is reset to neutral instead. *)
Theorem heat_map_before_letters_fall (st : State) (char : N) :
  gameIsActive st = true ->
  let mid := updateProjectiles (updatePlayerPosition st) in
  let st' := gameLoop st in
  (gameIsActive st' = true ->
   keyboardMap st' !! char =
     (fun _ => keyStyle (proximityMapOf (fallingLetters mid)) char)
       <$> keyboardMap st !! char /\
   fallingLetters st' = map (fall (fallSpeed mid)) (fallingLetters mid)) /\
  (gameIsActive st' = false ->
   keyboardMap st' !! char = (fun _ => Neutral) <$> keyboardMap st !! char).
Proof.
  intros Hactive mid st'. subst st'. unfold gameLoop. rewrite Hactive. cbn [negb].
  fold mid.
  destruct (updateProjectiles_from_keyboard
              (length (projectiles (updatePlayerPosition st)))
              (updatePlayerPosition st)) as [Hmid Hkeys].
  fold (updateProjectiles (updatePlayerPosition st)) in Hmid, Hkeys.
  fold mid in Hmid, Hkeys. cbn in Hmid, Hkeys.
  assert (gameIsActive (updateKeyboardVisuals mid) = true) as Hactive3.
  { cbn. congruence. }
  split; intros Hafter.
  - rewrite (updateLetters_active _ Hactive3 Hafter). cbn.
    rewrite map_lookup_imap, Hkeys. split; [| reflexivity].
    destruct (keyboardMap st !! char); reflexivity.
  - destruct (updateLetters_over _ Hactive3 Hafter) as [letters' ->]. cbn.
    rewrite lookup_fmap, map_lookup_imap, Hkeys.
    destruct (keyboardMap st !! char); reflexivity.
Qed.

(** * Further properties *)

(** ** Player *)

(** X1.  If the player fits in the field, [updatePlayerPosition] leaves it
    between the left wall and [GAME_WIDTH - PLAYER_WIDTH], wherever it was
    and whichever keys are held.  When the move the keys ask for stays
    within these bounds it is made exactly: 8 pixels left or right, and
    nothing when both keys are held. *)
Theorem player_stays_in_field (st : State) :
  (PLAYER_WIDTH <= GAME_WIDTH)%Z ->
  let p' := playerPosition (updatePlayerPosition st) in
  (0 <= p' <= inject_Z (GAME_WIDTH - PLAYER_WIDTH))%Q /\
  ((0 <= playerPosition st + intent st <= inject_Z (GAME_WIDTH - PLAYER_WIDTH))%Q ->
   (p' == playerPosition st + intent st)%Q).
Proof.
  intros Hfits p'. subst p'.
  assert (0 <= inject_Z (GAME_WIDTH - PLAYER_WIDTH))%Q as Hroom.
  { change 0%Q with (inject_Z 0). rewrite <- Zle_Qle. lia. }
  unfold updatePlayerPosition, intent, PLAYER_SPEED.
  cbn [playerPosition set_playerPosition].
  destruct (isMovingLeft st), (isMovingRight st);
    repeat match goal with
           | |- context [Qltb ?a 0%Q] =>
               let H := fresh "Hcmp" in
               destruct (Qltb a 0%Q) eqn:H;
               [apply Qltb_lt in H | apply Qltb_ge in H]
           | |- context [Qltb ?a ?b] =>
               let H := fresh "Hcmp" in
               destruct (Qltb a b) eqn:H;
               [apply Qltb_lt in H | apply Qltb_ge in H]
           end;
    split; try intros [? ?]; try split; lra.
Qed.

(** ** Difficulty *)

(** X2.  Difficulty only grows with the score: a higher score never gives a
    longer spawn interval, and with a growth per point that is not
    negative it never gives a slower fall.  Once
    [initialSpawnInterval - 10 * score] is at or below 400 the interval
    stays at 400. *)
Theorem difficulty_monotone (st : State) (a b : Z) :
  (a <= b)%Z ->
  (nextInterval (set_score b st) <= nextInterval (set_score a st))%Z /\
  ((0 <= fallSpeedIncreasePerScore st)%Q ->
   (fallSpeed (set_score a st) <= fallSpeed (set_score b st))%Q) /\
  ((initialSpawnInterval st - 10 * a <= 400)%Z ->
   nextInterval (set_score b st) = 400%Z).
Proof.
  intros Hab. unfold nextInterval, fallSpeed. cbn [score set_score
    initialSpawnInterval initialFallSpeed fallSpeedIncreasePerScore].
  unfold MIN_SPAWN_INTERVAL, SPAWN_INTERVAL_REDUCTION_PER_SCORE.
  split; [lia |]. split; [| lia].
  intros Hgrowth.
  apply double_mono, Qplus_le_r, double_mono, Qmult_le_compat_r; [| exact Hgrowth].
  rewrite <- Zle_Qle. exact Hab.
Qed.

(** ** Keyboard heat map, again *)

(** X3.  The styles of the keys are derived from the falling letters alone:
    [updateKeyboardVisuals] keeps the set of keys, gives the same result
    whatever the styles were before, and doing it twice is doing it
    once. *)
Theorem heat_map_derived (st : State) (styles : gmap N KeyStyle) :
  (forall char, is_Some (styles !! char) <-> is_Some (keyboardMap st !! char)) ->
  updateKeyboardVisuals (set_keyboardMap styles st) = updateKeyboardVisuals st /\
  updateKeyboardVisuals (updateKeyboardVisuals st) = updateKeyboardVisuals st /\
  (forall char,
     is_Some (keyboardMap (updateKeyboardVisuals st) !! char) <->
     is_Some (keyboardMap st !! char)).
Proof.
  intros Hkeys.
  assert (forall m1 m2 : gmap N KeyStyle,
            (forall char, is_Some (m1 !! char) <-> is_Some (m2 !! char)) ->
            map_imap (fun char _ =>
                        Some (keyStyle (proximityMapOf (fallingLetters st)) char)) m1 =
            map_imap (fun char _ =>
                        Some (keyStyle (proximityMapOf (fallingLetters st)) char)) m2)
    as Hsame.
  { intros m1 m2 Hdom. apply map_eq. intros char. rewrite !map_lookup_imap.
    specialize (Hdom char).
    destruct (m1 !! char) as [s1 |], (m2 !! char) as [s2 |]; try reflexivity.
    - destruct Hdom as [Hdom _]. destruct Hdom as [? Hnone]; [eauto | discriminate].
    - destruct Hdom as [_ Hdom]. destruct Hdom as [? Hnone]; [eauto | discriminate]. }
  assert (forall char,
            is_Some (keyboardMap (updateKeyboardVisuals st) !! char) <->
            is_Some (keyboardMap st !! char)) as Hdom.
  { intros char. cbn. rewrite map_lookup_imap.
    destruct (keyboardMap st !! char); cbn; split; intros [? H]; eauto; discriminate. }
  split; [| split; [| exact Hdom]].
  - unfold updateKeyboardVisuals. cbn [fallingLetters keyboardMap set_keyboardMap].
    rewrite (Hsame styles (keyboardMap st) Hkeys). reflexivity.
  - unfold updateKeyboardVisuals in *. cbn [fallingLetters keyboardMap set_keyboardMap] in *.
    rewrite (Hsame _ (keyboardMap st) Hdom). reflexivity.
Qed.

Lemma proximity_nonneg (letter : Letter) :
  (LETTER_WIDTH < GAME_HEIGHT)%Z ->
  (0 <= offsetTop (l_element letter))%Z ->
  (0 <= proximity letter)%Q.
Proof.
  intros Hroom Htop. unfold proximity. apply double_nonneg.
  apply Qle_shift_div_l.
  - change 0%Q with (inject_Z 0). rewrite <- Zlt_Qlt. lia.
  - rewrite Qmult_0_l. change 0%Q with (inject_Z 0). rewrite <- Zle_Qle. exact Htop.
Qed.

(** X4.  If the field is taller than a letter and no letter is above the
    top of the field, the lightness of a heated key is between 45 and 70,
    the two ends the script's comment gives ("70% (light) down to 45%
    (dark)"). *)
Theorem lightness_range (st : State) (char : N) (lightness : Q) :
  (LETTER_WIDTH < GAME_HEIGHT)%Z ->
  Forall (fun letter => (0 <= offsetTop (l_element letter))%Z) (fallingLetters st) ->
  keyboardMap (updateKeyboardVisuals st) !! char = Some (Heated lightness) ->
  (45 <= lightness <= 70)%Q.
Proof.
  intros Hroom Htops Hkey. cbn in Hkey. rewrite map_lookup_imap in Hkey.
  destruct (keyboardMap st !! char) as [old |]; [| discriminate]. cbn in Hkey.
  unfold keyStyle in Hkey.
  pose proof (proximityMapOf_max (fallingLetters st) char) as Hmax.
  destruct (proximityMapOf (fallingLetters st) !! char) as [p |]; [| discriminate].
  destruct Hmax as (best & Hin & _ & -> & _).
  injection Hkey as <-.
  rewrite Forall_forall in Htops.
  pose proof (proximity_nonneg best Hroom (Htops best Hin)) as Hp.
  pose proof (Q.le_min_r (proximity best) 1) as Hle.
  assert (0 <= Qmin (proximity best) 1)%Q as Hge by (apply Q.min_glb; lra).
  set (intensity := Qmin (proximity best) 1) in *.
  assert (0 <= double (25 * intensity) <= 25)%Q as [Hlow Hhigh].
  { split; [apply double_nonneg; lra |].
    apply Qle_trans with (double 25); [apply double_mono; lra | vm_compute; discriminate]. }
  split.
  - apply Qle_trans with (double 45); [vm_compute; discriminate | apply double_mono; lra].
  - apply Qle_trans with (double 70); [apply double_mono; lra | vm_compute; discriminate].
Qed.

(** ** Falling letters, again *)

Lemma fallen_keeps {B : Type} (f : Letter -> B) (speed : Q) (k n : nat)
    (letters letters' : list Letter) :
  (forall l, f (fall speed l) = f l) ->
  (forall m, letters' !! m = fallen speed k n letters m) ->
  f <$> letters' = f <$> letters.
Proof.
  intros Hf Hlookup. apply list_eq. intros m.
  rewrite !list_lookup_fmap, Hlookup. unfold fallen.
  case_decide; [| reflexivity].
  destruct (letters !! m); cbn; [rewrite Hf |]; reflexivity.
Qed.

(** X5.  [updateLetters] only moves letters down: it never removes, adds or
    reorders one and never changes a character or a column; each letter
    either keeps its position or gets the double sum of its position and
    the fall speed; and the score, the projectiles and the player are left
    alone. *)
Theorem updateLetters_only_moves (st : State) :
  let st' := updateLetters st in
  l_character <$> fallingLetters st' = l_character <$> fallingLetters st /\
  (style_left ∘ l_element) <$> fallingLetters st' =
    (style_left ∘ l_element) <$> fallingLetters st /\
  Forall2 (fun l l' => y l' = y l \/ y l' = double (y l + fallSpeed st))
    (fallingLetters st) (fallingLetters st') /\
  score st' = score st /\ projectiles st' = projectiles st /\
  playerPosition st' = playerPosition st.
Proof.
  intros st'. subst st'.
  destruct (updateLetters_cases st) as [[_ ->] | (k & letter & letters' & _ & _ & -> & Hlookup)].
  - cbn. rewrite <- !list_fmap_compose. repeat split; try reflexivity.
    apply Forall2_fmap_r, Forall_Forall2_diag, Forall_forall.
    intros l _. right. reflexivity.
  - cbn. rewrite (fallen_keeps l_character _ _ _ _ _ (fun _ => eq_refl) Hlookup).
    rewrite (fallen_keeps (style_left ∘ l_element) _ _ _ _ _ (fun _ => eq_refl) Hlookup).
    repeat split; try reflexivity.
    apply Forall2_same_length_lookup. split.
    + rewrite <- (length_fmap l_character (fallingLetters st)),
        <- (length_fmap l_character letters').
      f_equal. symmetry.
      apply (fallen_keeps l_character _ _ _ _ _ (fun _ => eq_refl) Hlookup).
    + intros m l l' Hl Hl'. rewrite Hlookup in Hl'. unfold fallen in Hl'.
      rewrite Hl in Hl'. case_decide; injection Hl' as <-; [right | left]; reflexivity.
Qed.

(** X6.  A frame of an active game ends the game exactly when, after the
    projectiles of this frame have been moved and their hits resolved, some
    letter still on the board lands strictly below the bottom edge: the
    double sum of its position and the fall speed, which is what the
    script stores and compares, is larger than [GAME_HEIGHT].  So a letter
    that is hit in the very frame in which it would cross the edge does
    not end the game. *)
Theorem game_over_iff_letter_past_bottom (st : State) :
  gameIsActive st = true ->
  let mid := updateProjectiles (updatePlayerPosition st) in
  gameIsActive (gameLoop st) = false <->
  exists letter,
    letter ∈ fallingLetters mid /\
    (inject_Z GAME_HEIGHT < double (y letter + fallSpeed mid))%Q.
Proof.
  intros Hactive mid. unfold gameLoop. rewrite Hactive. cbn [negb]. fold mid.
  destruct (updateProjectiles_from_keyboard
              (length (projectiles (updatePlayerPosition st)))
              (updatePlayerPosition st)) as [Hmid _].
  fold (updateProjectiles (updatePlayerPosition st)) in Hmid. fold mid in Hmid.
  cbn in Hmid.
  set (st3 := updateKeyboardVisuals mid).
  destruct (updateLetters_cases st3)
    as [[Hsafe ->] | (k & letter & letters' & Hk & Hover & -> & _)].
  - cbn. split; [congruence |].
    intros (letter & Hin & Hover). exfalso.
    rewrite Forall_forall in Hsafe. specialize (Hsafe letter Hin).
    apply pastBottom_false in Hsafe. apply (Qle_not_lt _ _ Hsafe). exact Hover.
  - cbn. split; [intros _ | reflexivity].
    exists letter. split; [apply list_elem_of_lookup; exists k; exact Hk |].
    apply pastBottom_true in Hover. exact Hover.
Qed.

(** ** Starting a game *)

Lemma foldl_insert_lookup {V : Type} (v : V) (chars : list N) : forall (m : gmap N V) char,
  foldl (fun m c => <[c := v]> m) m chars !! char =
  if decide (char ∈ chars) then Some v else m !! char.
Proof.
  induction chars as [| a chars IH]; intros m char; cbn [foldl].
  - rewrite decide_False by apply not_elem_of_nil. reflexivity.
  - rewrite IH. destruct (decide (char ∈ chars)) as [Hin | Hout].
    + rewrite decide_True by (apply elem_of_cons; right; exact Hin). reflexivity.
    + destruct (decide (char = a)) as [-> | Hne].
      * rewrite lookup_insert_eq, decide_True by apply list_elem_of_here. reflexivity.
      * rewrite lookup_insert_ne by congruence.
        rewrite decide_False; [reflexivity |].
        intros Hin. apply elem_of_cons in Hin as [? | ?]; contradiction.
Qed.

Lemma setupKeyboard_lookup (st : State) (char : N) :
  keyboardMap (setupKeyboard st) !! char =
  if decide (char ∈ alphabet (selectedLanguage st)) then Some Neutral else None.
Proof.
  unfold setupKeyboard. cbn [keyboardMap set_keyboardMap].
  rewrite foldl_insert_lookup, lookup_empty.
  destruct (selectedLanguage st); reflexivity.
Qed.

(** X7.  [startGame] starts from a clean slate whatever the state before: the
    game is active, the score is 0, no letter and no projectile is left,
    the movement flags are down, the player is centred, the selected
    language is kept, the keyboard has exactly the keys of that language,
    all neutral, and one new timeout is armed with the tier's base
    interval. *)
Theorem startGame_resets (difficulty : Difficulty) (st : State) :
  let st' := startGame difficulty st in
  gameIsActive st' = true /\ score st' = 0%Z /\
  fallingLetters st' = [] /\ projectiles st' = [] /\
  isMovingLeft st' = false /\ isMovingRight st' = false /\
  selectedLanguage st' = selectedLanguage st /\
  (playerPosition st' + inject_Z PLAYER_WIDTH / 2 == inject_Z GAME_WIDTH / 2)%Q /\
  (fallSpeed st' == speed (DIFFICULTY_SETTINGS difficulty))%Q /\
  (forall char,
     keyboardMap st' !! char =
     if decide (char ∈ alphabet (selectedLanguage st)) then Some Neutral else None) /\
  letterInterval st' = timeoutIds st /\
  timeouts st' =
    <[timeoutIds st := spawn (DIFFICULTY_SETTINGS difficulty)]> (timeouts st).
Proof.
  intros st'. subst st'. unfold startGame, scheduleNextLetter.
  cbn [gameIsActive setupKeyboard set_keyboardMap negb].
  repeat split; try reflexivity.
  - cbn. unfold Z.sub. rewrite inject_Z_plus, inject_Z_opp. field.
  - unfold fallSpeed. destruct difficulty; vm_compute; reflexivity.
  - intros char. rewrite <- setupKeyboard_lookup. reflexivity.
  - destruct difficulty; reflexivity.
Qed.

(** ** Spawning *)



Lemma createLetter_spawned (st : State) :
  fallingLetters (createLetter st) = fallingLetters st ++ [spawned st].
Proof.
  cbv beta iota delta [createLetter Math_random spawned alphabet].
  cbn [fallingLetters logCall set_calls set_fallingLetters set_randomCalls
       selectedLanguage randomCalls].
  destruct (selectedLanguage st); reflexivity.
Qed.



(** X9.  Every letter that can fall can be shot: while the game is active,
    pressing the key of any character of either alphabet, or its lower
    case, enqueues a projectile whose upper-cased character is that
    character, which is the test a collision makes. *)
Theorem every_letter_can_be_shot (st : State) (lang : Language) (c : N) (key : list N) :
  gameIsActive st = true ->
  c ∈ alphabet lang ->
  key = [c] \/ key = [toLowerCase c] ->
  exists proj,
    projectiles (handleKeyPress key st) = projectiles st ++ [proj] /\
    toUpperCase (p_character proj) = c.
Proof.
  intros Hactive Hc Hkey.
  assert (forallb (fun c =>
            (isLatinLetter c || bool_decide (c ∈ HEBREW_CHARACTERS)) &&
            (isLatinLetter (toLowerCase c) ||
               bool_decide (toLowerCase c ∈ HEBREW_CHARACTERS)) &&
            (toUpperCase (toLowerCase c) =? c)%N &&
            (toUpperCase (toLowerCase (toLowerCase c)) =? c)%N)
          (alphabet lang) = true) as Hall.
  { destruct lang; vm_compute; reflexivity. }
  rewrite forallb_forall in Hall.
  specialize (Hall c (proj1 (list_elem_of_In _ _) Hc)).
  rewrite !andb_true_iff, !N.eqb_eq in Hall.
  destruct Hall as (((Hupper & Hlower) & Hround) & Hround').
  rewrite (handleKeyPress_projectiles st key Hactive).
  destruct Hkey as [-> | ->].
  - rewrite Hupper. eexists. split; [reflexivity | exact Hround].
  - rewrite Hlower. eexists. split; [reflexivity | exact Hround'].
Qed.

(** ** Projectiles, again *)

Lemma scanLetters_cases (i : nat) (proj : Projectile) (st : State) (n : nat) :
  scanLetters i proj n st = (st, false) \/
  exists k, scanLetters i proj n st = (resolveHit i k st, true).
Proof.
  induction n as [| j IH]; [left; reflexivity |].
  cbn [scanLetters]. destruct (fallingLetters st !! j) as [letter |]; [| left; reflexivity].
  destruct (collides proj letter); [right; exists j; reflexivity | exact IH].
Qed.

(** What one turn of the outer loop does to the score and to the array of
    projectiles: a hit, a drop, or a move. *)
Lemma updateProjectile_shape (i : nat) (st : State) (p : Projectile) :
  projectiles st !! i = Some p ->
  let st' := updateProjectile i st in
  score st' = (score st + 1)%Z /\ projectiles st' = delete i (projectiles st) \/
  score st' = score st /\ (style_top (p_element p) < 0)%Z /\
    projectiles st' = delete i (projectiles st) \/
  score st' = score st /\ (0 <= style_top (p_element p))%Z /\
    projectiles st' = <[i := moveUp p]> (projectiles st).
Proof.
  intros Hi st'. subst st'. unfold updateProjectile. rewrite Hi.
  set (st1 := set_projectiles _ st).
  destruct (scanLetters_cases i (moveUp p) st1 (length (fallingLetters st1)))
    as [-> | [k ->]].
  - destruct (Z.ltb_spec (style_top (p_element p)) 0).
    + right. left. cbn. rewrite delete_insert_same. repeat split; [lia].
    + right. right. repeat split; lia.
  - left. destruct (resolveHit_fields i k st1) as (-> & -> & _).
    cbn. rewrite delete_insert_same. split; reflexivity.
Qed.

Lemma updateProjectiles_from_shape (n : nat) : forall st,
  (n <= length (projectiles st))%nat ->
  exists kept,
    projectiles (updateProjectiles_from n st) = kept ++ drop n (projectiles st) /\
    kept `sublist_of` survivors (take n (projectiles st)) /\
    (score st <= score (updateProjectiles_from n st))%Z /\
    (score (updateProjectiles_from n st) - score st + Z.of_nat (length kept)
       <= Z.of_nat n)%Z.
Proof.
  induction n as [| i IH]; intros st Hn.
  - exists []. cbn. rewrite drop_0. repeat split; try lia. apply sublist_nil_l.
  - cbn [updateProjectiles_from].
    destruct (lookup_lt_is_Some_2 (projectiles st) i) as [p Hi]; [lia |].
    pose proof (updateProjectile_shape i st p Hi) as Hturn. cbv zeta in Hturn.
    set (st1 := updateProjectile i st) in *.
    rewrite (take_S_r _ _ _ Hi), survivors_snoc.
    assert (take i (delete i (projectiles st)) = take i (projectiles st)) as Htake.
    { rewrite delete_take_drop. apply take_app_length'. rewrite length_take_le; lia. }
    assert (drop i (delete i (projectiles st)) = drop (S i) (projectiles st)) as Hdrop.
    { rewrite delete_take_drop. apply drop_app_length'. rewrite length_take_le; lia. }
    destruct Hturn as [(Hs & Hp) | [(Hs & Htop & Hp) | (Hs & Htop & Hp)]].
    + destruct (IH st1) as (kept & Hkept & Hsub & Hle & Hcount).
      { rewrite Hp, length_delete by (eexists; exact Hi). lia. }
      rewrite Hp, Htake, Hdrop in *. exists kept.
      split; [exact Hkept |]. split; [apply sublist_inserts_r, Hsub | lia].
    + destruct (IH st1) as (kept & Hkept & Hsub & Hle & Hcount).
      { rewrite Hp, length_delete by (eexists; exact Hi). lia. }
      rewrite Hp, Htake, Hdrop in *. exists kept.
      split; [exact Hkept |]. split; [apply sublist_inserts_r, Hsub | lia].
    + destruct (IH st1) as (kept & Hkept & Hsub & Hle & Hcount).
      { rewrite Hp, length_insert. lia. }
      rewrite Hp in *. rewrite take_insert_ge in Hsub by lia.
      rewrite insert_take_drop, drop_app_length' in Hkept
        by (rewrite ?length_take_le; lia).
      exists (kept ++ [moveUp p]).
      destruct (Z.ltb_spec (style_top (p_element p)) 0); [lia |].
      split; [rewrite Hkept, <- app_assoc; reflexivity |].
      split; [apply sublist_app; [exact Hsub | reflexivity] |].
      rewrite length_app. cbn. lia.
Qed.

(** X10.  In one frame no projectile is added and each projectile scores at
    most once: the projectiles left by [updateProjectiles] are, in order,
    some of those whose top was not negative before the frame, each moved
    up by [PROJECTILE_SPEED]; the score does not go down, and it goes up by
    no more than the number of projectiles that went away. *)
Theorem projectiles_score_at_most_once (st : State) :
  let st' := updateProjectiles st in
  projectiles st' `sublist_of` survivors (projectiles st) /\
  (score st <= score st')%Z /\
  (score st' - score st <=
     Z.of_nat (length (projectiles st)) - Z.of_nat (length (projectiles st')))%Z.
Proof.
  intros st'. subst st'. unfold updateProjectiles.
  destruct (updateProjectiles_from_shape (length (projectiles st)) st (le_n _))
    as (kept & Hkept & Hsub & Hle & Hcount).
  rewrite Hkept, drop_all, app_nil_r. rewrite firstn_all in Hsub.
  split; [exact Hsub |]. split; [exact Hle | lia].
Qed.

(** ** Invariants of the reachable states *)

(** A property of the state that the turns of the projectile loop keep is
    kept by [updateProjectiles]. *)
Lemma updateProjectiles_from_keeps (I : State -> Prop) :
  (forall ps s, I s -> I (set_projectiles ps s)) ->
  (forall i j s, I s -> I (resolveHit i j s)) ->
  forall n st, I st -> I (updateProjectiles_from n st).
Proof.
  intros Hset Hhit. induction n as [| i IH]; intros st Hst; [exact Hst |].
  cbn [updateProjectiles_from]. apply IH.
  unfold updateProjectile. destruct (projectiles st !! i) as [p |]; [| exact Hst].
  set (st1 := set_projectiles _ st).
  assert (I st1) as Hst1 by (apply Hset, Hst).
  destruct (scanLetters_cases i (moveUp p) st1 (length (fallingLetters st1)))
    as [-> | [k ->]].
  - destruct (_ <? _)%Z; [apply Hset |]; exact Hst1.
  - apply Hhit, Hst1.
Qed.

Lemma resolveHit_letters (i j : nat) (st : State) :
  fallingLetters (resolveHit i j st) =
  delete j (fallingLetters st) ++
  (if (length (delete j (fallingLetters st)) =? 0)%nat then [spawned st] else []).
Proof.
  unfold resolveHit.
  cbn [fallingLetters set_fallingLetters set_projectiles set_score].
  destruct (length (delete j (fallingLetters st)) =? 0)%nat;
    [| cbn; rewrite app_nil_r; reflexivity].
  match goal with
  | |- context [scheduleNextLetter ?s] =>
      destruct (scheduleNextLetter_fields s) as (_ & _ & -> & _)
  end.
  rewrite createLetter_spawned. reflexivity.
Qed.

Lemma resolveHit_settings (i j : nat) (st : State) :
  initialFallSpeed (resolveHit i j st) = initialFallSpeed st /\
  fallSpeedIncreasePerScore (resolveHit i j st) = fallSpeedIncreasePerScore st /\
  selectedLanguage (resolveHit i j st) = selectedLanguage st.
Proof.
  unfold resolveHit, scheduleNextLetter.
  cbn [fallingLetters set_fallingLetters set_projectiles set_score].
  destruct (length (delete j (fallingLetters st)) =? 0)%nat; [| repeat split; reflexivity].
  cbv beta iota delta [createLetter Math_random clearTimeout].
  cbn [gameIsActive logCall set_calls set_fallingLetters set_randomCalls
       set_timeouts set_projectiles set_score].
  destruct (gameIsActive st); repeat split; reflexivity.
Qed.

Lemma handleKeyPress_keeps (key : list N) (st : State) :
  gameIsActive (handleKeyPress key st) = gameIsActive st /\
  timeouts (handleKeyPress key st) = timeouts st /\
  letterInterval (handleKeyPress key st) = letterInterval st /\
  score (handleKeyPress key st) = score st /\
  initialFallSpeed (handleKeyPress key st) = initialFallSpeed st /\
  fallSpeedIncreasePerScore (handleKeyPress key st) = fallSpeedIncreasePerScore st /\
  fallingLetters (handleKeyPress key st) = fallingLetters st /\
  keyboardMap (handleKeyPress key st) = keyboardMap st /\
  selectedLanguage (handleKeyPress key st) = selectedLanguage st.
Proof.
  unfold handleKeyPress. destruct (gameIsActive st) eqn:Hactive; cbn [negb];
    [| repeat split; assumption].
  destruct key as [| c [| c' key]];
    repeat (destruct (keyIs _ _));
    try destruct (isLatinLetter c || bool_decide (c ∈ HEBREW_CHARACTERS));
    repeat split; assumption.
Qed.

Lemma handleKeyUp_keeps (key : list N) (st : State) :
  gameIsActive (handleKeyUp key st) = gameIsActive st /\
  timeouts (handleKeyUp key st) = timeouts st /\
  letterInterval (handleKeyUp key st) = letterInterval st /\
  score (handleKeyUp key st) = score st /\
  initialFallSpeed (handleKeyUp key st) = initialFallSpeed st /\
  fallSpeedIncreasePerScore (handleKeyUp key st) = fallSpeedIncreasePerScore st /\
  fallingLetters (handleKeyUp key st) = fallingLetters st /\
  keyboardMap (handleKeyUp key st) = keyboardMap st /\
  selectedLanguage (handleKeyUp key st) = selectedLanguage st /\
  projectiles (handleKeyUp key st) = projectiles st.
Proof.
  unfold handleKeyUp. repeat (destruct (keyIs _ _)); repeat split; reflexivity.
Qed.

Lemma nextInterval_floor (st : State) : (400 <= nextInterval st)%Z.
Proof. unfold nextInterval, MIN_SPAWN_INTERVAL. lia. Qed.

Lemma armed_active (st : State) :
  gameIsActive st = true ->
  (exists delay, (400 <= delay)%Z /\ timeouts st = {[ letterInterval st := delay ]}) ->
  armed st.
Proof. intros Hactive Hone. unfold armed. rewrite Hactive. exact Hone. Qed.

Lemma armed_active_inv (st : State) :
  gameIsActive st = true -> armed st ->
  exists delay, (400 <= delay)%Z /\ timeouts st = {[ letterInterval st := delay ]}.
Proof. intros Hactive Harmed. unfold armed in Harmed. rewrite Hactive in Harmed. exact Harmed. Qed.

Lemma armed_idle_inv (st : State) :
  gameIsActive st = false -> armed st -> timeouts st = ∅.
Proof. intros Hidle Harmed. unfold armed in Harmed. rewrite Hidle in Harmed. exact Harmed. Qed.

Lemma resolveHit_armed (i j : nat) (st : State) :
  gameIsActive st = true /\ armed st ->
  gameIsActive (resolveHit i j st) = true /\ armed (resolveHit i j st).
Proof.
  intros [Hactive Harmed].
  destruct (armed_active_inv st Hactive Harmed) as (delay & Hdelay & Hone).
  destruct (resolveHit_fields i j st) as (_ & _ & Hsame & _).
  split; [rewrite Hsame; exact Hactive |].
  apply armed_active; [rewrite Hsame; exact Hactive |].
  unfold resolveHit.
  cbn [fallingLetters set_fallingLetters set_projectiles set_score].
  destruct (length (delete j (fallingLetters st)) =? 0)%nat.
  - unfold scheduleNextLetter.
    cbv beta iota delta [createLetter Math_random clearTimeout].
    cbn [gameIsActive logCall set_calls set_fallingLetters set_randomCalls
         set_timeouts set_projectiles set_score].
    rewrite Hactive. cbn [negb]. eexists. split; [apply nextInterval_floor |].
    cbn. rewrite Hone, delete_singleton_eq, insert_empty. reflexivity.
  - exists delay. split; [exact Hdelay | exact Hone].
Qed.

Lemma gameLoop_armed (st : State) : armed st -> armed (gameLoop st).
Proof.
  intros Harmed. unfold gameLoop.
  destruct (gameIsActive st) eqn:Hactive; cbn [negb]; [| exact Harmed].
  assert (gameIsActive (updateProjectiles (updatePlayerPosition st)) = true /\
          armed (updateProjectiles (updatePlayerPosition st))) as [Hactive2 Harmed2].
  { apply (updateProjectiles_from_keeps
             (fun s => gameIsActive s = true /\ armed s)).
    - intros ps s Hs. exact Hs.
    - intros i j s. apply resolveHit_armed.
    - split; assumption. }
  set (mid := updateProjectiles (updatePlayerPosition st)) in *.
  destruct (armed_active_inv mid Hactive2 Harmed2) as (delay & Hdelay & Hone).
  destruct (updateLetters_cases (updateKeyboardVisuals mid))
    as [[_ ->] | (k & letter & letters' & _ & _ & -> & _)].
  - apply armed_active; [exact Hactive2 |]. exists delay. split; assumption.
  - change (delete (letterInterval mid) (timeouts mid) = ∅).
    rewrite Hone. apply delete_singleton_eq.
Qed.

Lemma timeoutFires_armed (id : nat) (st : State) :
  armed st -> armed (timeoutFires id st).
Proof.
  intros Harmed. unfold timeoutFires.
  destruct (timeouts st !! id) as [delay0 |] eqn:Hid; [| exact Harmed].
  destruct (gameIsActive st) eqn:Hactive.
  - destruct (armed_active_inv st Hactive Harmed) as (delay & Hdelay & Hone).
    rewrite Hone in Hid. apply lookup_singleton_Some in Hid as [<- _].
    unfold scheduleNextLetter.
    cbv beta iota delta [createLetter Math_random].
    cbn [gameIsActive logCall set_calls set_fallingLetters set_randomCalls
         set_timeouts].
    rewrite Hactive. cbn [negb]. apply armed_active; [exact Hactive |].
    eexists. split; [apply nextInterval_floor |].
    cbn. rewrite Hone, delete_singleton_eq, insert_empty. reflexivity.
  - rewrite (armed_idle_inv st Hactive Harmed), lookup_empty in Hid. discriminate.
Qed.

Lemma startGame_armed (difficulty : Difficulty) (st : State) :
  gameIsActive st = false -> armed st -> armed (startGame difficulty st).
Proof.
  intros Hidle Harmed. apply armed_active; [reflexivity |].
  eexists. split; [| cbn; rewrite (armed_idle_inv st Hidle Harmed), insert_empty;
                      reflexivity].
  apply nextInterval_floor.
Qed.

Lemma reachable_armed (st : State) : reachable st -> armed st.
Proof.
  induction 1 as [| st _ IH | key st _ IH | key st _ IH | id st _ IH
                  | lang st _ IH Hidle | difficulty st _ IH Hidle].
  - reflexivity.
  - apply gameLoop_armed, IH.
  - destruct (handleKeyPress_keeps key st) as (Ha & Ht & Hl & _).
    unfold armed in *. rewrite Ha, Ht, Hl. exact IH.
  - destruct (handleKeyUp_keeps key st) as (Ha & Ht & Hl & _).
    unfold armed in *. rewrite Ha, Ht, Hl. exact IH.
  - apply timeoutFires_armed, IH.
  - exact IH.
  - apply startGame_armed; assumption.
Qed.

(** X11.  In every reachable state the spawn timer is as it should be: while
    a game is active exactly one timeout is pending, the one
    [letterInterval] names, with a delay of at least 400 ms; while no game
    is active none is pending.  So spawns never pile up, and none can
    happen after the game is over. *)
Theorem one_spawn_timer (st : State) :
  reachable st ->
  (gameIsActive st = true ->
   exists delay,
     (400 <= delay)%Z /\ timeouts st = {[ letterInterval st := delay ]}) /\
  (gameIsActive st = false -> timeouts st = ∅).
Proof.
  intros Hreach. pose proof (reachable_armed st Hreach) as Harmed.
  split; intros Hactive.
  - apply armed_active_inv; assumption.
  - apply armed_idle_inv; assumption.
Qed.

Lemma run_ignored (events : list Event) : forall st,
  gameIsActive st = false -> timeouts st = ∅ ->
  Forall ignoredWhenOver events ->
  run events st = st.
Proof.
  induction events as [| e events IH]; intros st Hidle Hnone Hquiet; [reflexivity |].
  apply Forall_cons in Hquiet as [He Hquiet].
  change (run (e :: events) st) with (run events (handle e st)).
  assert (handle e st = st) as ->.
  { destruct e; try destruct He; cbn [handle].
    - unfold gameLoop. rewrite Hidle. reflexivity.
    - unfold handleKeyPress. rewrite Hidle. reflexivity.
    - unfold timeoutFires. rewrite Hnone, lookup_empty. reflexivity. }
  apply IH; assumption.
Qed.

(** X12.  A finished game stays as it is: from a reachable state in which no
    game is active, frames, key-downs and timeouts, in any number and
    order, change nothing at all; the final score, the letters and the
    neutral keyboard stay until the next [startGame]. *)
Theorem game_over_is_final (st : State) (events : list Event) :
  reachable st ->
  gameIsActive st = false ->
  Forall ignoredWhenOver events ->
  run events st = st.
Proof.
  intros Hreach Hidle Hquiet. apply run_ignored; [exact Hidle | | exact Hquiet].
  apply armed_idle_inv; [exact Hidle | apply reachable_armed, Hreach].
Qed.

Lemma timeoutFires_fields (id : nat) (st : State) :
  fallingLetters (timeoutFires id st) =
    fallingLetters st ++
      match timeouts st !! id with Some _ => [spawned st] | None => [] end /\
  gameIsActive (timeoutFires id st) = gameIsActive st /\
  score (timeoutFires id st) = score st /\
  initialFallSpeed (timeoutFires id st) = initialFallSpeed st /\
  fallSpeedIncreasePerScore (timeoutFires id st) = fallSpeedIncreasePerScore st /\
  selectedLanguage (timeoutFires id st) = selectedLanguage st /\
  keyboardMap (timeoutFires id st) = keyboardMap st /\
  projectiles (timeoutFires id st) = projectiles st.
Proof.
  unfold timeoutFires. destruct (timeouts st !! id);
    [| rewrite app_nil_r; repeat split; reflexivity].
  match goal with
  | |- context [scheduleNextLetter ?s] =>
      destruct (scheduleNextLetter_fields s) as (Hs & Hp & Hl & Ha & Hk)
  end.
  rewrite Hl, Ha, Hk, Hs, Hp, createLetter_spawned.
  unfold scheduleNextLetter.
  cbv beta iota delta [createLetter Math_random].
  cbn [gameIsActive logCall set_calls set_fallingLetters set_randomCalls set_timeouts].
  destruct (gameIsActive st); repeat split; reflexivity.
Qed.

Lemma fallSpeed_nonneg (st : State) : sound st -> (0 <= fallSpeed st)%Q.
Proof.
  intros (Hscore & Hspeed & Hgrowth & _). unfold fallSpeed.
  assert (0 <= inject_Z (score st) * fallSpeedIncreasePerScore st)%Q as Hgrown.
  { apply Qmult_le_0_compat; [| exact Hgrowth].
    change 0%Q with (inject_Z 0). rewrite <- Zle_Qle. exact Hscore. }
  apply double_nonneg in Hgrown. apply double_nonneg. lra.
Qed.

Lemma spawned_ok (st : State) : letterOk (spawned st).
Proof. split; [reflexivity | cbn; lra]. Qed.

Lemma fall_ok (amount : Q) (letter : Letter) :
  (0 <= amount)%Q -> letterOk letter -> letterOk (fall amount letter).
Proof.
  intros Hamount [_ Hy]. split; [reflexivity | cbn; apply double_nonneg; lra].
Qed.

Lemma resolveHit_sound (i j : nat) (st : State) :
  sound st -> sound (resolveHit i j st).
Proof.
  intros (Hscore & Hspeed & Hgrowth & Hletters).
  destruct (resolveHit_fields i j st) as (Hs & _ & _).
  destruct (resolveHit_settings i j st) as (Hi & Hg & _).
  unfold sound. rewrite Hs, Hi, Hg, resolveHit_letters.
  split; [lia |]. split; [exact Hspeed |]. split; [exact Hgrowth |].
  apply Forall_app. split; [apply Forall_delete, Hletters |].
  destruct (_ =? _)%nat; [apply Forall_singleton, spawned_ok | apply Forall_nil_2].
Qed.

(** A property of letters that falling keeps is kept by [updateLetters]. *)
Lemma updateLetters_Forall (P : Letter -> Prop) (st : State) :
  (forall letter, P letter -> P (fall (fallSpeed st) letter)) ->
  Forall P (fallingLetters st) -> Forall P (fallingLetters (updateLetters st)).
Proof.
  intros Hfall Hall.
  destruct (updateLetters_cases st)
    as [[_ ->] | (k & letter & letters' & _ & _ & -> & Hlookup)]; cbn.
  - apply Forall_fmap. eapply Forall_impl; [exact Hall | exact Hfall].
  - apply Forall_lookup_2. intros m x Hx. rewrite Hlookup in Hx. unfold fallen in Hx.
    rewrite Forall_lookup in Hall. case_decide.
    + destruct (fallingLetters st !! m) as [l |] eqn:Hl; [| discriminate].
      injection Hx as <-. apply Hfall, (Hall m l Hl).
    + apply (Hall m x Hx).
Qed.

Lemma updateLetters_settings (st : State) :
  score (updateLetters st) = score st /\
  initialFallSpeed (updateLetters st) = initialFallSpeed st /\
  fallSpeedIncreasePerScore (updateLetters st) = fallSpeedIncreasePerScore st /\
  selectedLanguage (updateLetters st) = selectedLanguage st /\
  projectiles (updateLetters st) = projectiles st.
Proof.
  destruct (updateLetters_cases st)
    as [[_ ->] | (k & letter & letters' & _ & _ & -> & _)]; repeat split; reflexivity.
Qed.

Lemma gameLoop_sound (st : State) : sound st -> sound (gameLoop st).
Proof.
  intros Hsound. unfold gameLoop.
  destruct (gameIsActive st); cbn [negb]; [| exact Hsound].
  assert (sound (updateProjectiles (updatePlayerPosition st))) as Hmid.
  { apply (updateProjectiles_from_keeps sound).
    - intros ps s Hs. exact Hs.
    - intros i j s. apply resolveHit_sound.
    - exact Hsound. }
  set (mid := updateProjectiles (updatePlayerPosition st)) in *.
  assert (sound (updateKeyboardVisuals mid)) as Hst3 by exact Hmid.
  destruct (updateLetters_settings (updateKeyboardVisuals mid)) as (Hs & Hi & Hg & _).
  destruct Hst3 as (Hscore & Hspeed & Hgrowth & Hletters).
  unfold sound. rewrite Hs, Hi, Hg.
  split; [exact Hscore |]. split; [exact Hspeed |]. split; [exact Hgrowth |].
  apply updateLetters_Forall; [| exact Hletters].
  intros letter. apply fall_ok, fallSpeed_nonneg, Hmid.
Qed.

Lemma reachable_sound (st : State) : reachable st -> sound st.
Proof.
  induction 1 as [| st _ IH | key st _ IH | key st _ IH | id st _ IH
                  | lang st _ IH Hidle | difficulty st _ IH Hidle].
  - unfold sound. cbn. repeat split; try lra; try lia. apply Forall_nil_2.
  - apply gameLoop_sound, IH.
  - destruct (handleKeyPress_keeps key st) as (_ & _ & _ & Hs & Hi & Hg & Hl & _).
    unfold sound in *. rewrite Hs, Hi, Hg, Hl. exact IH.
  - destruct (handleKeyUp_keeps key st) as (_ & _ & _ & Hs & Hi & Hg & Hl & _).
    unfold sound in *. rewrite Hs, Hi, Hg, Hl. exact IH.
  - destruct (timeoutFires_fields id st) as (Hl & _ & Hs & Hi & Hg & _).
    destruct IH as (Hscore & Hspeed & Hgrowth & Hletters).
    unfold sound. rewrite Hs, Hi, Hg, Hl.
    repeat split; try assumption.
    apply Forall_app. split; [exact Hletters |].
    destruct (timeouts st !! id); [apply Forall_singleton, spawned_ok | apply Forall_nil_2].
  - exact IH.
  - unfold sound. cbn. split; [lia |].
    destruct difficulty; cbn; repeat split;
      try (vm_compute; discriminate); apply Forall_nil_2.
Qed.

Lemma reachable_inField (st : State) :
  (0 <= GAME_HEIGHT)%Z -> reachable st -> gameIsActive st = true -> inField st.
Proof.
  intros Hheight.
  assert (forall s, (y (spawned s) <= inject_Z GAME_HEIGHT)%Q) as Hspawned.
  { intros s. cbn. change 0%Q with (inject_Z 0). rewrite <- Zle_Qle. exact Hheight. }
  induction 1 as [| st _ IH | key st _ IH | key st _ IH | id st _ IH
                  | lang st _ IH Hidle | difficulty st _ IH Hidle]; intros Hactive.
  - discriminate Hactive.
  - unfold gameLoop in *.
    destruct (gameIsActive st) eqn:Hbefore; cbn [negb] in *; [| congruence].
    assert (inField (updateProjectiles (updatePlayerPosition st))) as Hmid.
    { apply (updateProjectiles_from_keeps inField).
      - intros ps s Hs. exact Hs.
      - intros i j s Hs. unfold inField. rewrite resolveHit_letters.
        apply Forall_app. split; [apply Forall_delete, Hs |].
        destruct (_ =? _)%nat; [apply Forall_singleton, Hspawned | apply Forall_nil_2].
      - apply IH. reflexivity. }
    set (st3 := updateKeyboardVisuals (updateProjectiles (updatePlayerPosition st))) in *.
    destruct (updateLetters_cases st3)
      as [[Hsafe Hrun] | (k & letter & letters' & _ & _ & Hrun & _)];
      rewrite Hrun in *; [| discriminate Hactive].
    unfold inField. cbn. apply Forall_fmap.
    eapply Forall_impl; [exact Hsafe |].
    intros letter Hletter. apply pastBottom_false in Hletter. exact Hletter.
  - destruct (handleKeyPress_keeps key st) as (Ha & _ & _ & _ & _ & _ & Hl & _).
    unfold inField. rewrite Hl. apply IH. congruence.
  - destruct (handleKeyUp_keeps key st) as (Ha & _ & _ & _ & _ & _ & Hl & _).
    unfold inField. rewrite Hl. apply IH. congruence.
  - destruct (timeoutFires_fields id st) as (Hl & Ha & _).
    unfold inField. rewrite Hl. apply Forall_app. split; [apply IH; congruence |].
    destruct (timeouts st !! id); [apply Forall_singleton, Hspawned | apply Forall_nil_2].
  - cbn in Hactive. congruence.
  - apply Forall_nil_2.
Qed.

(** X13.  In every reachable state the score is not negative and every
    falling letter is drawn where its position says: the [top] of its
    element is the floor of [y], and [y] is not negative.  If the field has
    a height that is not negative, then while a game is active no letter is
    below the bottom edge either. *)
Theorem letters_stay_in_field (st : State) :
  reachable st ->
  (0 <= score st)%Z /\
  Forall (fun letter =>
            style_top (l_element letter) = Qfloor (y letter) /\ (0 <= y letter)%Q)
    (fallingLetters st) /\
  ((0 <= GAME_HEIGHT)%Z -> gameIsActive st = true ->
   Forall (fun letter => (y letter <= inject_Z GAME_HEIGHT)%Q) (fallingLetters st)).
Proof.
  intros Hreach. destruct (reachable_sound st Hreach) as (Hscore & _ & _ & Hletters).
  split; [exact Hscore |]. split; [exact Hletters |].
  intros Hheight Hactive. apply reachable_inField; assumption.
Qed.





Lemma sublist_Forall {A : Type} (P : A -> Prop) (l k : list A) :
  l `sublist_of` k -> Forall P k -> Forall P l.
Proof.
  induction 1 as [| x l k _ IH | x l k _ IH]; intros Hall.
  - apply Forall_nil_2.
  - apply Forall_cons in Hall as [Hx Hall]. apply Forall_cons. split; [exact Hx | apply IH, Hall].
  - apply Forall_cons in Hall as [_ Hall]. apply IH, Hall.
Qed.

Lemma survivors_inFlight (ps : list Projectile) :
  Forall inFlight ps -> Forall inFlight (survivors ps).
Proof.
  intros Hall. unfold survivors. apply Forall_fmap, Forall_forall.
  intros p Hp. apply list_elem_of_filter in Hp as [Htop Hp].
  rewrite Forall_forall in Hall. specialize (Hall p Hp).
  unfold inFlight in *. cbn. unfold PROJECTILE_SPEED in *. lia.
Qed.

Lemma reachable_inFlight (st : State) :
  (player_offsetHeight page <= GAME_HEIGHT + PROJECTILE_SPEED)%Z ->
  reachable st -> Forall inFlight (projectiles st).
Proof.
  intros Hplayer.
  induction 1 as [| st _ IH | key st _ IH | key st _ IH | id st _ IH
                  | lang st _ IH Hidle | difficulty st _ IH Hidle].
  - apply Forall_nil_2.
  - unfold gameLoop. destruct (gameIsActive st); cbn [negb]; [| exact IH].
    destruct (updateLetters_settings
                (updateKeyboardVisuals (updateProjectiles (updatePlayerPosition st))))
      as (_ & _ & _ & _ & ->).
    change (projectiles (updateKeyboardVisuals ?s)) with (projectiles s).
    unfold updateProjectiles.
    destruct (updateProjectiles_from_shape
                (length (projectiles (updatePlayerPosition st)))
                (updatePlayerPosition st) (le_n _)) as (kept & -> & Hsub & _).
    rewrite drop_all, app_nil_r. rewrite firstn_all in Hsub.
    apply (sublist_Forall _ _ _ Hsub), survivors_inFlight, IH.
  - destruct (gameIsActive st) eqn:Hactive.
    + rewrite (handleKeyPress_projectiles st key Hactive).
      destruct key as [| c [| c' key]]; try exact IH.
      destruct (isLatinLetter c || bool_decide (c ∈ HEBREW_CHARACTERS)); [| exact IH].
      cbn. apply Forall_app. split; [exact IH |].
      apply Forall_singleton. unfold inFlight. cbn. unfold PROJECTILE_SPEED in *. lia.
    + unfold handleKeyPress. rewrite Hactive. exact IH.
  - destruct (handleKeyUp_keeps key st) as (_ & _ & _ & _ & _ & _ & _ & _ & _ & ->).
    exact IH.
  - destruct (timeoutFires_fields id st) as (_ & _ & _ & _ & _ & _ & _ & ->). exact IH.
  - exact IH.
  - apply Forall_nil_2.
Qed.

(** X15.  If the player is not taller than the field by more than one
    projectile step, every projectile of a reachable state has its top
    between one step above the field and the top of the player: a
    projectile that leaves the field is gone by the end of the next
    frame. *)
Theorem projectiles_stay_near_field (st : State) :
  (player_offsetHeight page <= GAME_HEIGHT + PROJECTILE_SPEED)%Z ->
  reachable st ->
  Forall (fun p =>
            (- PROJECTILE_SPEED <= style_top (p_element p) <=
               GAME_HEIGHT - player_offsetHeight page)%Z)
    (projectiles st).
Proof. intros Hplayer Hreach. apply reachable_inFlight; assumption. Qed.

Lemma reachable_run (events : list Event) : forall st,
  reachable st -> Forall isInput events -> reachable (run events st).
Proof.
  induction events as [| e events IH]; intros st Hreach Hinput; [exact Hreach |].
  apply Forall_cons in Hinput as [He Hinput].
  change (run (e :: events) st) with (run events (handle e st)).
  apply IH; [| exact Hinput].
  destruct e; try destruct He; cbn [handle].
  - apply reachable_frame, Hreach.
  - apply reachable_keydown, Hreach.
  - apply reachable_keyup, Hreach.
  - apply reachable_timeout, Hreach.
Qed.

Lemma oldestFirst_delete (letters : list Letter) (k : nat) :
  oldestFirst letters -> oldestFirst (delete k letters).
Proof.
  intros Hsorted i j a b Hij Ha Hb.
  destruct (decide (i < k)%nat);
    [rewrite list_lookup_delete_lt in Ha by lia
    | rewrite list_lookup_delete_ge in Ha by lia];
    (destruct (decide (j < k)%nat);
     [rewrite list_lookup_delete_lt in Hb by lia
     | rewrite list_lookup_delete_ge in Hb by lia]);
    (eapply Hsorted; [| exact Ha | exact Hb]; lia).
Qed.

Lemma oldestFirst_snoc (letters : list Letter) (new : Letter) :
  oldestFirst letters ->
  Forall (fun letter => (y new <= y letter)%Q) letters ->
  oldestFirst (letters ++ [new]).
Proof.
  intros Hsorted Hnew i j a b Hij Ha Hb.
  apply lookup_snoc_Some in Ha as [[Hi Ha] | [Hi <-]];
    apply lookup_snoc_Some in Hb as [[Hj Hb] | [Hj <-]].
  - apply (Hsorted i j a b Hij Ha Hb).
  - rewrite Forall_lookup in Hnew. apply (Hnew i a Ha).
  - lia.
  - apply Qle_refl.
Qed.

Lemma oldestFirst_fall (letters : list Letter) (amount : Q) :
  oldestFirst letters -> oldestFirst (fall amount <$> letters).
Proof.
  intros Hsorted i j a b Hij Ha Hb.
  rewrite list_lookup_fmap in Ha, Hb.
  destruct (letters !! i) as [a0 |] eqn:Hi; [| discriminate].
  destruct (letters !! j) as [b0 |] eqn:Hj; [| discriminate].
  injection Ha as <-. injection Hb as <-. cbn.
  pose proof (Hsorted i j a0 b0 Hij Hi Hj). apply double_mono. lra.
Qed.

Lemma reachable_oldestFirst (st : State) :
  reachable st -> gameIsActive st = true -> oldestFirst (fallingLetters st).
Proof.
  intros Hreach. pose proof (reachable_sound st Hreach) as Hsound. revert Hsound.
  assert (forall s (letters : list Letter),
            Forall letterOk letters ->
            Forall (fun letter => (y (spawned s) <= y letter)%Q) letters) as Hnew.
  { intros s letters Hok. eapply Forall_impl; [exact Hok |]. intros l [_ Hy]. exact Hy. }
  induction Hreach as [| st Hreach IH | key st _ IH | key st _ IH | id st _ IH
                       | lang st _ IH Hidle | difficulty st _ IH Hidle];
    intros Hsound Hactive.
  - discriminate Hactive.
  - pose proof (reachable_sound st Hreach) as Hbefore.
    unfold gameLoop in *.
    destruct (gameIsActive st) eqn:Hwas; cbn [negb] in *; [| congruence].
    assert (sound (updateProjectiles (updatePlayerPosition st)) /\
            oldestFirst (fallingLetters (updateProjectiles (updatePlayerPosition st))))
      as [_ Hmid].
    { apply (updateProjectiles_from_keeps
               (fun s => sound s /\ oldestFirst (fallingLetters s))).
      - intros ps s Hs. exact Hs.
      - intros i j s [Hs Ho]. split; [apply resolveHit_sound, Hs |].
        rewrite resolveHit_letters.
        destruct (_ =? _)%nat; [| rewrite app_nil_r; apply oldestFirst_delete, Ho].
        apply oldestFirst_snoc; [apply oldestFirst_delete, Ho |].
        apply Hnew, Forall_delete. apply Hs.
      - split; [exact Hbefore | apply IH; [exact Hbefore | reflexivity]]. }
    set (st3 := updateKeyboardVisuals (updateProjectiles (updatePlayerPosition st))) in *.
    destruct (updateLetters_cases st3)
      as [[_ Hrun] | (k & letter & letters' & _ & _ & Hrun & _)];
      rewrite Hrun in *; [| discriminate Hactive].
    cbn. apply oldestFirst_fall, Hmid.
  - destruct (handleKeyPress_keeps key st) as (Ha & _ & _ & Hs & Hi & Hg & Hl & _).
    rewrite Hl. apply IH; [| congruence].
    unfold sound in *. rewrite Hs, Hi, Hg, Hl in Hsound. exact Hsound.
  - destruct (handleKeyUp_keeps key st) as (Ha & _ & _ & Hs & Hi & Hg & Hl & _).
    rewrite Hl. apply IH; [| congruence].
    unfold sound in *. rewrite Hs, Hi, Hg, Hl in Hsound. exact Hsound.
  - destruct (timeoutFires_fields id st) as (Hl & Ha & Hs & Hi & Hg & _).
    unfold sound in Hsound. rewrite Hs, Hi, Hg, Hl in Hsound.
    destruct Hsound as (Hscore & Hspeed & Hgrowth & Hletters).
    apply Forall_app in Hletters as [Hletters _].
    assert (oldestFirst (fallingLetters st)) as Hold.
    { apply IH; [| congruence]. repeat split; assumption. }
    rewrite Hl. destruct (timeouts st !! id); [| rewrite app_nil_r; exact Hold].
    apply oldestFirst_snoc; [exact Hold | apply Hnew, Hletters].
  - cbn in Hactive. congruence.
  - intros i j a b _ Ha. cbn in Ha. discriminate Ha.
Qed.

(** X16.  While a game is active the letters are kept oldest first, and an
    older letter is never higher on the screen than a newer one: new
    letters are pushed at the end at the top, all letters fall by the same
    amount, and nothing ever reorders them.  So the first letter of the
    array is always the lowest one. *)
Theorem letters_oldest_first (st : State) :
  reachable st ->
  gameIsActive st = true ->
  forall i j a b,
    (i <= j)%nat ->
    fallingLetters st !! i = Some a -> fallingLetters st !! j = Some b ->
    (y b <= y a)%Q.
Proof. intros Hreach Hactive. apply reachable_oldestFirst; assumption. Qed.
End Game.

(** * The properties on the sample page *)

(** The sample game is the one [startGame] sets up on the sample page. *)
Example playing_startGame :
  startGame samplePage hard (loaded samplePage) = playing hard 0 [] [].
Proof. vm_compute. reflexivity. Qed.

(** ** Doubles *)

(** The decimal literal [0.3] is the double [5404319552844595 / 2 ^ 54];
    [0.1 + 0.2] is [0.30000000000000004], the double after [0.3]; a tie
    goes to the even neighbour; below [2 ^ -1022] the spacing stays
    [2 ^ -1074]; and at [2 ^ 60] adding [0.3] changes nothing. *)
Example double_samples :
  double 0.3 = (5404319552844595 # 18014398509481984)%Q /\
  (double (double 0.1 + double 0.2) == double 0.3 + (1 # 18014398509481984))%Q /\
  (double (1 + (1 # 9007199254740992)) == 1)%Q /\
  (double (1 + (3 # 9007199254740992)) == 1 + (4 # 9007199254740992))%Q /\
  (double (3 * 2 ^ (-1075)) == 2 * 2 ^ (-1074))%Q /\
  (double (inject_Z (2 ^ 60) + double 0.3) == inject_Z (2 ^ 60))%Q.
Proof. vm_compute. repeat split; reflexivity. Qed.

(** Ten frames on the easy tier take a letter from 0 to
    2.9999999999999996, shown at 2 pixels. *)
Example ten_easy_frames :
  let st := frames samplePage 10 (playing easy 0 [letterAt 65 100 0] []) in
  Forall2 Qeq (y <$> fallingLetters st) [6755399441055743 # 2251799813685248]%Q /\
  (style_top ∘ l_element) <$> fallingLetters st = [2%Z].
Proof. vm_compute. repeat split; try reflexivity; repeat constructor. Qed.

(** On the normal tier at score 4 the fall speed is the double 1.6.  A
    letter is still in the field, and the game active, after 274 frames;
    the 275th frame puts it at 440.00000000000193, past the bottom of the
    sample field, and ends the game. *)
Example normal_tier_reaches_the_bottom :
  let st := frames samplePage 274 (playing normal 4 [letterAt 65 100 0] []) in
  (fallSpeed st == double 1.6)%Q /\
  gameIsActive st = true /\
  gameIsActive (gameLoop samplePage st) = false /\
  Forall2 Qeq (y <$> fallingLetters (gameLoop samplePage st))
    [3870280929771537 # 8796093022208]%Q.
Proof. vm_compute. repeat split; try reflexivity; repeat constructor. Qed.

(** On a field of 300 pixels, hard tier, score 8: the fall speed is the
    double 2.4 and after 124 frames a letter is at the double 297.6.  The
    exact sum of the two is larger than 300, their double sum is 300: the
    letter lands on the bottom edge and the game goes on. *)
Example rounded_sum_lands_on_the_edge :
  let st := frames lowPage 124 (playing hard 8 [letterAt 65 100 0] []) in
  (fallSpeed st == double 2.4)%Q /\
  Forall2 Qeq (y <$> fallingLetters st) [double 297.6] /\
  (300 < double 297.6 + double 2.4)%Q /\
  (double (double 297.6 + double 2.4) == 300)%Q /\
  gameIsActive (gameLoop lowPage st) = true /\
  Forall2 Qeq (y <$> fallingLetters (gameLoop lowPage st)) [300%Q].
Proof. vm_compute. repeat split; try reflexivity; repeat constructor. Qed.

(** ** The claims *)

(** The delay armed on the easy tier at score 50. *)
Lemma scheduleNextLetter_delay_witness :
  let st := playing easy 50 [] [] in
  gameIsActive st = true /\
  timeouts (scheduleNextLetter st) !! letterInterval (scheduleNextLetter st)
    = Some 9500%Z.
Proof.
  split; [reflexivity |].
  destruct (scheduleNextLetter_delay (playing easy 50 [] []) eq_refl) as (Harmed & _ & _).
  exact Harmed.
Defined.

(** Pressing [a] on the sample page shoots one projectile, centred on the
    player. *)
Lemma keydown_shoots_witness :
  let st := playing hard 0 [] [] in
  exists proj,
    projectiles (handleKeyPress samplePage [97%N] st) = projectiles st ++ [proj] /\
    p_character proj = toLowerCase 97 /\
    (style_left (p_element proj) + inject_Z PROJECTILE_WIDTH / 2 ==
       playerPosition st + inject_Z (PLAYER_WIDTH samplePage) / 2)%Q /\
    style_top (p_element proj) =
      (GAME_HEIGHT samplePage - player_offsetHeight samplePage)%Z.
Proof.
  destruct (keydown_shoots samplePage (playing hard 0 [] []) [97%N]) as [_ Hactive].
  destruct (Hactive eq_refl) as [Hshoot _].
  apply (Hshoot 97%N). split; [reflexivity | left; reflexivity].
Defined.

(** With English selected, a Hebrew key shoots all the same.  And a key-up
    that arrives after the game is over still clears the movement flag:
    a letter is spawned, ArrowLeft is pressed and held, and the letter
    passes the bottom in the 221st frame. *)
Lemma keydown_shoots_counterexample :
  (let st := playing hard 0 [] [] in
   gameIsActive st = true /\ selectedLanguage st = en /\
   isLatinLetter 1511 = false /\ (1511%N ∉ ENGLISH_CHARACTERS) /\
   length (projectiles st) = 0%nat /\
   length (projectiles (handleKeyPress samplePage [1511%N] st)) = 1%nat) /\
  (let st := run samplePage ([Timeout 1; KeyDown ArrowLeft] ++ replicate 221 Frame)
               (playing hard 0 [] []) in
   gameIsActive st = false /\ isMovingLeft st = true /\
   isMovingLeft (handleKeyUp ArrowLeft st) = false).
Proof.
  split.
  - repeat split; try reflexivity.
    apply (bool_decide_eq_false_1 (1511%N ∈ ENGLISH_CHARACTERS)). reflexivity.
  - vm_compute. repeat split; reflexivity.
Qed.

(** A lower-case [a] against two letters [A] in the same column: the one
    it overlaps is hit, the other is not. *)
Example same_character_needs_overlap :
  collides samplePage (projectileAt 97 105 60) (letterAt 65 100 50) = true /\
  collides samplePage (projectileAt 97 105 60) (letterAt 65 100 0) = false.
Proof. split; reflexivity. Qed.

Lemma first_collision_hits_witness :
  let proj := projectileAt 97 105 60 in
  let st := playing hard 0 [letterAt 65 100 0; letterAt 65 100 50] [proj] in
  exists st' respawned,
    scanLetters samplePage 0 proj (length (fallingLetters st)) st = (st', true) /\
    score st' = (score st + 1)%Z /\
    projectiles st' = delete 0%nat (projectiles st) /\
    fallingLetters st' = delete 1%nat (fallingLetters st) ++ respawned /\
    (respawned = [] \/
     delete 1%nat (fallingLetters st) = [] /\ length respawned = 1%nat).
Proof.
  intros proj st.
  destruct (first_collision_hits samplePage st 0 proj) as (_ & Hhit & _).
  apply (Hhit 1%nat (letterAt 65 100 50)); [reflexivity | reflexivity |].
  intros m letter' Hm Hlook. destruct m as [| [| [| m]]]; try lia; discriminate Hlook.
Defined.

(** One letter, one hit: the board is cleared and refilled at once.  Two
    letters, two shots and thirty-two frames: both letters are hit and the
    respawn happens once. *)
Lemma board_cleared_respawn_witness :
  (let st := playing hard 0 [letterAt 65 380 0] [projectileAt 97 387.5 30] in
   let st' := resolveHit samplePage 0 0 st in
   calls st' =
     calls st ++ [CallClearTimeout (letterInterval st); CallCreateLetter;
                  CallSetTimeout (nextInterval st')] /\
   (exists fresh,
      fallingLetters st' = [fresh] /\ y fresh = 0%Q /\
      style_top (l_element fresh) = 0%Z) /\
   letterInterval st' = timeoutIds st /\
   timeouts st' =
     <[letterInterval st' := nextInterval st']>
       (delete (letterInterval st) (timeouts st))) /\
  (let st := playing hard 0 [letterAt 65 380 0; letterAt 66 380 0] [] in
   let st' := run samplePage ([KeyDown [97%N]; KeyDown [98%N]] ++ replicate 32 Frame) st in
   score st' = 2%Z /\
   spawnCalls st' = S (spawnCalls st) /\
   length (fallingLetters st') = 1%nat).
Proof.
  split.
  - intros st.
    destruct (board_cleared_respawn samplePage st) as [Hclear _].
    apply (Hclear 0%nat 0%nat); reflexivity.
  - intros st st'. split; [vm_compute; reflexivity |].
    destruct (board_cleared_respawn samplePage st) as [_ Hplay].
    destruct (Hplay ([KeyDown [97%N]; KeyDown [98%N]] ++ replicate 32 Frame))
      as (_ & _ & Htwice).
    + cbn [replicate app]. repeat constructor.
    + cbn. lia.
    + apply Htwice. vm_compute. reflexivity.
Defined.

(** Three letters on the hard tier: the last one lands exactly on the
    bottom edge, the middle one goes past it, the first one is never
    reached. *)
Lemma updateLetters_bottom_witness :
  (let st := playing hard 0 [letterAt 67 300 438] [] in
   gameIsActive (updateLetters samplePage st) = true) /\
  (let st := playing hard 0
               [letterAt 65 100 0; letterAt 66 200 440; letterAt 67 300 438] [] in
   let st' := updateLetters samplePage st in
   gameIsActive st' = false /\
   (forall m, (m < 1)%nat -> fallingLetters st' !! m = fallingLetters st !! m) /\
   (forall m, (1 <= m)%nat ->
      fallingLetters st' !! m = fall (fallSpeed st) <$> fallingLetters st !! m)).
Proof.
  split.
  - intros st.
    destruct (updateLetters_bottom samplePage st) as (Hsafe & _ & _).
    rewrite Hsafe; [reflexivity |].
    intros letter Hin. apply list_elem_of_singleton in Hin as ->.
    vm_compute. discriminate.
  - intros st st'.
    destruct (updateLetters_bottom samplePage st) as (_ & _ & Hfirst).
    apply (Hfirst 1%nat (letterAt 66 200 440)).
    + reflexivity.
    + vm_compute. reflexivity.
    + intros m letter' Hm Hlook. destruct m as [| [| [| m]]]; try lia.
      * injection Hlook as <-. vm_compute. discriminate.
      * discriminate Hlook.
Defined.

(** One letter on the easy tier, from the second frame to the third; and
    the frame that ends the game of two letters that fall side by side on
    the hard tier. *)
Lemma letters_fall_each_frame_witness :
  (let st := playing easy 0 [letterAt 65 100 0] [] in
   let amount :=
     double (initialFallSpeed st
             + double (inject_Z (score st) * fallSpeedIncreasePerScore st)) in
   let before := fallingLetters (frames samplePage 2 st) in
   let after := fallingLetters (frames samplePage 3 st) in
   Forall2 (fun letter letter' =>
              y letter' = double (y letter + amount) /\
              l_character letter' = l_character letter) before after /\
   (0 < amount)%Q /\
   Forall2 (fun letter letter' => (y letter < y letter')%Q) before after) /\
  (let st := run samplePage ([Timeout 1; Timeout 2] ++ replicate 220 Frame)
               (playing hard 0 [] []) in
   let amount :=
     double (initialFallSpeed st
             + double (inject_Z (score st) * fallSpeedIncreasePerScore st)) in
   let before := fallingLetters (frames samplePage 0 st) in
   let after := fallingLetters (frames samplePage 1 st) in
   exists k letter,
     before !! k = Some letter /\
     (inject_Z (GAME_HEIGHT samplePage) < double (y letter + amount))%Q /\
     (forall m letter',
        (k < m)%nat -> before !! m = Some letter' ->
        (double (y letter' + amount) <= inject_Z (GAME_HEIGHT samplePage))%Q) /\
     (forall m, (m < k)%nat -> after !! m = before !! m) /\
     (forall m, (k <= m)%nat -> after !! m = fall amount <$> before !! m)).
Proof.
  split.
  - intros st amount before after.
    destruct (letters_fall_each_frame samplePage st 2 eq_refl) as [Hactive _].
    assert (gameIsActive (frames samplePage 3 st) = true) as Hstill
      by (vm_compute; reflexivity).
    destruct (Hactive Hstill) as [Hsum Hgrow].
    split; [exact Hsum |].
    apply (Hgrow easy); [reflexivity | reflexivity | discriminate |].
    subst before.
    replace (fallingLetters (frames samplePage 2 st))
      with [letterAt 65 100 (double 0.6)] by (vm_compute; reflexivity).
    apply Forall_singleton. split; vm_compute; discriminate.
  - intros st amount before after.
    assert (projectiles st = []) as Hnone by (vm_compute; reflexivity).
    destruct (letters_fall_each_frame samplePage st 0 Hnone) as [_ Hover].
    apply Hover; vm_compute; reflexivity.
Defined.

(** One letter on the easy tier.  After two frames it is at the double
    0.6 and the fall speed is the double 0.3; the third frame, which
    leaves the game active, puts it at 0.8999999999999999, the double
    nearest to their sum and not their sum.  And two letters spawned
    before the first frame of a hard game fall side by side: after 220
    frames both are at 440, the game is active and no projectile is in
    flight; in the next frame the second letter goes past the bottom, the
    loop stops there, and the first letter is not moved although the fall
    speed is positive. *)
Lemma letters_fall_each_frame_counterexample :
  (let st := run samplePage ([Timeout 1] ++ replicate 2 Frame) (playing easy 0 [] []) in
   let st' := gameLoop samplePage st in
   gameIsActive st' = true /\ projectiles st = [] /\
   (fallSpeed st == double 0.3)%Q /\
   Forall2 Qeq (y <$> fallingLetters st) [double 0.6] /\
   Forall2 Qeq (y <$> fallingLetters st') [8106479329266892 # 9007199254740992]%Q /\
   (8106479329266892 # 9007199254740992 < double 0.6 + double 0.3)%Q) /\
  (let st := run samplePage ([Timeout 1; Timeout 2] ++ replicate 220 Frame)
               (playing hard 0 [] []) in
   gameIsActive st = true /\ projectiles st = [] /\
   (fallSpeed st == 2)%Q /\
   Forall2 Qeq (y <$> fallingLetters st) [440; 440]%Q /\
   Forall2 Qeq (y <$> fallingLetters (gameLoop samplePage st)) [440; 442]%Q).
Proof.
  vm_compute. repeat split; try reflexivity; repeat constructor.
Qed.

(** Two letters [A] and one [B] on the sample page, whose field is 440
    pixels high: the key [A] takes the heat of the lower [A]. *)
Lemma keyboard_heat_witness :
  let st := playing hard 0
              [letterAt 65 100 100; letterAt 65 200 300; letterAt 66 0 50] [] in
  let letters := fallingLetters st in
  let normalized (letter : Letter) :=
    double (inject_Z (offsetTop (l_element letter))
            / inject_Z (GAME_HEIGHT samplePage - LETTER_WIDTH)) in
  exists letter,
    letter ∈ letters /\ l_character letter = 65%N /\
    (forall letter', letter' ∈ letters -> l_character letter' = 65%N ->
       (normalized letter' <= normalized letter)%Q) /\
    let intensity := Qmin (normalized letter) 1 in
    (intensity <= 1)%Q /\
    keyboardMap (updateKeyboardVisuals samplePage st) !! 65%N
      = Some (Heated (double (70 - double (25 * intensity)))).
Proof.
  intros st letters.
  assert (GAME_HEIGHT samplePage <> LETTER_WIDTH) as Hfield by discriminate.
  assert (is_Some (keyboardMap st !! 65%N)) as Hkey.
  { exists Neutral. vm_compute. reflexivity. }
  destruct (keyboard_heat samplePage st 65%N Hfield Hkey) as (Hheated & _ & _).
  apply Hheated. exists (letterAt 65 100 100).
  split; [apply list_elem_of_here | reflexivity].
Defined.

(** On the sample page the lower [A], at 300 of 400 pixels, gives the key
    [A] the lightness [70 - 25 * 0.75]. *)
Example keyboard_heat_sample :
  let st := playing hard 0
              [letterAt 65 100 100; letterAt 65 200 300; letterAt 66 0 50] [] in
  exists lightness,
    keyboardMap (updateKeyboardVisuals samplePage st) !! 65%N
      = Some (Heated lightness) /\
    (lightness == 51.25)%Q.
Proof. eexists. split; vm_compute; reflexivity. Qed.

Lemma heat_map_before_letters_fall_witness :
  let st := playing hard 0 [letterAt 65 100 0] [] in
  let mid := updateProjectiles samplePage (updatePlayerPosition samplePage st) in
  let st' := gameLoop samplePage st in
  (gameIsActive st' = true ->
   keyboardMap st' !! 65%N =
     (fun _ => keyStyle (proximityMapOf samplePage (fallingLetters mid)) 65%N)
       <$> keyboardMap st !! 65%N /\
   fallingLetters st' = map (fall (fallSpeed mid)) (fallingLetters mid)) /\
  (gameIsActive st' = false ->
   keyboardMap st' !! 65%N = (fun _ => Neutral) <$> keyboardMap st !! 65%N).
Proof.
  intros st.
  apply (heat_map_before_letters_fall samplePage st 65%N). reflexivity.
Defined.

(** One letter, just spawned at the top ([F], with the sample page's
    random numbers), hard tier.  After the frame the letter is 2 pixels
    down and the game goes on, but its key shows the heat of the position
    before the move: lightness 70, where the position after the move gives
    [70 - 25 * (2 / 400)]. *)
Lemma heat_map_before_letters_fall_counterexample :
  let st := run samplePage [Timeout 1] (playing hard 0 [] []) in
  let st' := gameLoop samplePage st in
  gameIsActive st = true /\ gameIsActive st' = true /\
  l_character <$> fallingLetters st' = [70%N] /\
  offsetTop <$> (l_element <$> fallingLetters st') = [2%Z] /\
  exists shown derived,
    keyboardMap st' !! 70%N = Some (Heated shown) /\
    keyStyle (proximityMapOf samplePage (fallingLetters st')) 70%N
      = Heated derived /\
    (shown == 70)%Q /\ (derived == 70 - 25 * (2 / 400))%Q /\ ~ (shown == derived)%Q.
Proof.
  split; [reflexivity |]. split; [vm_compute; reflexivity |].
  split; [vm_compute; reflexivity |]. split; [vm_compute; reflexivity |].
  eexists _, _. split; [vm_compute; reflexivity |].
  split; [vm_compute; reflexivity |].
  split; [reflexivity |]. split; [reflexivity |]. vm_compute. discriminate.
Qed.

(** Three projectiles and two letters.  The last projectile, [a], hits
    the letter [A] although its top is negative; then [x], which hits
    nothing and whose top was negative, is dropped; then [b], kept and
    moved, since the letter [B] is out of its reach. *)
Lemma projectiles_move_scan_drop_witness :
  (let b := projectileAt 98 500 80 in
   let x := projectileAt 120 500 (-5) in
   let a := projectileAt 97 107 (-5) in
   let st := playing hard 0 [letterAt 65 100 0; letterAt 66 300 60] [b; x; a] in
   exists k letter,
     fallingLetters st !! k = Some letter /\
     collides samplePage (moveUp a) letter = true /\
     (forall m letter',
        (k < m)%nat -> fallingLetters st !! m = Some letter' ->
        collides samplePage (moveUp a) letter' = false) /\
     let hit := resolveHit samplePage (length [b; x]) k
                  (set_projectiles ([b; x] ++ [moveUp a]) st) in
     score hit = (score st + 1)%Z /\
     projectiles hit = [b; x] /\
     updateProjectiles samplePage st = updateProjectiles samplePage hit) /\
  (let b := projectileAt 98 500 80 in
   let x := projectileAt 120 500 (-5) in
   let st := playing hard 1 [letterAt 66 300 60] [b; x] in
   let rest := updateProjectiles samplePage (set_projectiles [b] st) in
   updateProjectiles samplePage st =
   set_projectiles
     (projectiles rest ++
      (if (style_top (p_element x) <? 0)%Z then [] else [moveUp x]))
     rest) /\
  (let st := playing hard 0 [] [projectileAt 97 100 5; projectileAt 98 200 (-5)] in
   updateProjectiles samplePage st =
   set_projectiles
     (moveUp <$> filter (fun p => (0 <= style_top (p_element p))%Z) (projectiles st))
     st).
Proof.
  split; [| split].
  - intros b x a st.
    destruct (projectiles_move_scan_drop samplePage st) as (_ & _ & _ & Hhit & _).
    apply (Hhit [b; x] a); [reflexivity |].
    exists (letterAt 65 100 0). split; [apply list_elem_of_here | reflexivity].
  - intros b x st.
    destruct (projectiles_move_scan_drop samplePage st) as (_ & _ & Hmiss & _).
    apply (Hmiss [b] x); [reflexivity |].
    intros letter Hin. apply list_elem_of_singleton in Hin as ->. reflexivity.
  - intros st.
    destruct (projectiles_move_scan_drop samplePage st) as (_ & _ & _ & _ & Hnone).
    apply Hnone. intros p letter _ Hin. apply elem_of_nil in Hin as [].
Defined.

(** The whole step on these three projectiles: one point, one letter
    gone, and of the projectiles only [b] left, moved up by 10. *)
Example projectiles_step_sample :
  let st := playing hard 0 [letterAt 65 100 0; letterAt 66 300 60]
              [projectileAt 98 500 80; projectileAt 120 500 (-5);
               projectileAt 97 107 (-5)] in
  let st' := updateProjectiles samplePage st in
  score st' = 1%Z /\
  l_character <$> fallingLetters st' = [66%N] /\
  projectiles st' = [projectileAt 98 500 70].
Proof. vm_compute. repeat split; reflexivity. Qed.

(** A projectile shot from the player starts at top 420.  The 43rd frame
    moves it from 0 to -10, past the top edge, and it stays in the array.
    If a letter [F] is then spawned above it, the 44th frame moves the
    projectile to -20 and still scans it: it hits the letter and scores. *)
Lemma projectiles_move_scan_drop_counterexample :
  let shot := [KeyDown [102%N]] ++ replicate 43 Frame in
  (let st := run samplePage shot (playing hard 0 [] []) in
   (style_top ∘ p_element) <$> projectiles st = [(-10)%Z]) /\
  (let st := run samplePage (shot ++ [Timeout 1]) (playing hard 0 [] []) in
   l_character <$> fallingLetters st = [70%N] /\
   (style_top ∘ p_element) <$> projectiles st = [(-10)%Z] /\
   score st = 0%Z /\
   score (gameLoop samplePage st) = 1%Z /\
   projectiles (gameLoop samplePage st) = []).
Proof.
  vm_compute. repeat split; reflexivity.
Qed.

(** * The further properties on the sample page *)


Lemma playing_reachable : reachable samplePage (playing hard 0 [] []).
Proof.
  rewrite <- playing_startGame.
  apply reachable_start; [apply reachable_loaded | reflexivity].
Qed.

(** The player at the left wall with ArrowLeft held. *)
Lemma player_stays_in_field_witness :
  let st := set_isMovingLeft true (set_playerPosition 0 (playing hard 0 [] [])) in
  let p' := playerPosition (updatePlayerPosition samplePage st) in
  (0 <= p' <= inject_Z (GAME_WIDTH samplePage - PLAYER_WIDTH samplePage))%Q.
Proof.
  intros st.
  apply (player_stays_in_field samplePage st). vm_compute. discriminate.
Defined.

(** Scores 960 and 1000 on the easy tier: at 960 the interval has just
    come down to the floor. *)
Lemma difficulty_monotone_witness :
  let st := playing easy 0 [] [] in
  (nextInterval (set_score 1000 st) <= nextInterval (set_score 960 st))%Z /\
  (fallSpeed (set_score 960 st) <= fallSpeed (set_score 1000 st))%Q /\
  nextInterval (set_score 1000 st) = 400%Z.
Proof.
  intros st.
  destruct (difficulty_monotone st 960 1000) as (Hinterval & Hspeed & Hfloor); [lia |].
  split; [exact Hinterval |].
  split; [apply Hspeed | apply Hfloor]; vm_compute; discriminate.
Defined.

Lemma heat_map_derived_witness :
  let st := playing hard 0 [letterAt 65 100 100] [] in
  let styles := (fun _ => Heated 50) <$> keyboardMap st in
  updateKeyboardVisuals samplePage (set_keyboardMap styles st)
    = updateKeyboardVisuals samplePage st.
Proof.
  intros st styles.
  apply (heat_map_derived samplePage st styles).
  intros char. subst styles. rewrite lookup_fmap. apply fmap_is_Some.
Defined.

Lemma lightness_range_witness :
  let st := playing hard 0 [letterAt 65 100 100; letterAt 66 200 436] [] in
  exists lightness,
    keyboardMap (updateKeyboardVisuals samplePage st) !! 66%N = Some (Heated lightness) /\
    (45 <= lightness <= 70)%Q.
Proof.
  intros st. eexists. split; [vm_compute; reflexivity |].
  eapply (lightness_range samplePage st 66%N).
  - vm_compute. reflexivity.
  - repeat constructor; vm_compute; discriminate.
  - vm_compute. reflexivity.
Defined.

Lemma game_over_iff_letter_past_bottom_witness :
  let st := playing hard 0 [letterAt 65 100 440] [] in
  gameIsActive (gameLoop samplePage st) = false.
Proof.
  intros st.
  apply (game_over_iff_letter_past_bottom samplePage st eq_refl).
  exists (letterAt 65 100 440). split; [apply list_elem_of_here | vm_compute; reflexivity].
Defined.


(** The key [ק] while English is selected, and the key [q] for the letter
    [Q]. *)
Lemma every_letter_can_be_shot_witness :
  let st := playing hard 0 [] [] in
  (exists proj,
     projectiles (handleKeyPress samplePage [1511%N] st) = projectiles st ++ [proj] /\
     toUpperCase (p_character proj) = 1511%N) /\
  (exists proj,
     projectiles (handleKeyPress samplePage [toLowerCase 81] st)
       = projectiles st ++ [proj] /\
     toUpperCase (p_character proj) = 81%N).
Proof.
  intros st. split.
  - apply (every_letter_can_be_shot samplePage st he 1511%N); [reflexivity | | left; reflexivity].
    apply (bool_decide_eq_true_1 (1511%N ∈ alphabet he)). reflexivity.
  - apply (every_letter_can_be_shot samplePage st en 81%N); [reflexivity | | right; reflexivity].
    apply list_elem_of_here.
Defined.

Lemma one_spawn_timer_witness :
  let st := run samplePage [Timeout 1; Frame] (playing hard 0 [] []) in
  (gameIsActive st = true ->
   exists delay,
     (400 <= delay)%Z /\ timeouts st = {[ letterInterval st := delay ]}) /\
  (gameIsActive st = false -> timeouts st = ∅).
Proof.
  intros st. apply (one_spawn_timer samplePage st).
  apply reachable_run; [apply playing_reachable | repeat constructor].
Defined.

(** A letter is spawned and left to fall: the game is over in the 221st
    frame, and what comes after changes nothing. *)
Lemma game_over_is_final_witness :
  let st := run samplePage ([Timeout 1] ++ replicate 221 Frame) (playing hard 0 [] []) in
  gameIsActive st = false /\
  run samplePage [Frame; KeyDown [97%N]; Timeout 1; Timeout 2; Frame] st = st.
Proof.
  intros st.
  assert (gameIsActive st = false) as Hover by (vm_compute; reflexivity).
  split; [exact Hover |].
  apply (game_over_is_final samplePage st); [| exact Hover | repeat constructor].
  apply reachable_run; [apply playing_reachable |].
  cbn [replicate app]. repeat constructor.
Defined.

Lemma letters_stay_in_field_witness :
  let st := run samplePage ([Timeout 1] ++ replicate 3 Frame) (playing hard 0 [] []) in
  (0 <= score st)%Z /\
  Forall (fun letter =>
            style_top (l_element letter) = Qfloor (y letter) /\ (0 <= y letter)%Q)
    (fallingLetters st) /\
  ((0 <= GAME_HEIGHT samplePage)%Z -> gameIsActive st = true ->
   Forall (fun letter => (y letter <= inject_Z (GAME_HEIGHT samplePage))%Q)
     (fallingLetters st)).
Proof.
  intros st. apply (letters_stay_in_field samplePage st).
  apply reachable_run; [apply playing_reachable | cbn [replicate app]; repeat constructor].
Defined.


Lemma projectiles_stay_near_field_witness :
  let st := run samplePage ([KeyDown [97%N]] ++ replicate 43 Frame)
              (playing hard 0 [] []) in
  Forall (fun p =>
            (- PROJECTILE_SPEED <= style_top (p_element p) <=
               GAME_HEIGHT samplePage - player_offsetHeight samplePage)%Z)
    (projectiles st).
Proof.
  intros st. apply (projectiles_stay_near_field samplePage st).
  - vm_compute. discriminate.
  - apply reachable_run; [apply playing_reachable | cbn [replicate app]; repeat constructor].
Defined.

(** Two letters spawned three frames apart: the second is above the
    first. *)
Lemma letters_oldest_first_witness :
  let st := run samplePage ([Timeout 1] ++ replicate 3 Frame ++ [Timeout 2; Frame])
              (playing hard 0 [] []) in
  exists a b,
    fallingLetters st !! 0%nat = Some a /\ fallingLetters st !! 1%nat = Some b /\
    (y b <= y a)%Q.
Proof.
  intros st. eexists _, _.
  split; [vm_compute; reflexivity |]. split; [vm_compute; reflexivity |].
  apply (letters_oldest_first samplePage st) with (i := 0%nat) (j := 1%nat).
  - apply reachable_run; [apply playing_reachable | cbn [replicate app]; repeat constructor].
  - vm_compute. reflexivity.
  - lia.
  - vm_compute. reflexivity.
  - vm_compute. reflexivity.
Defined.
